(** * Verification of [cluster/transport/client.go]

    The RAFT transport client of the node: the RPC address resolver
    ([rpcResolver.Address]) and the leader-connection cache of [Client]
    ([getConn], [Close], [Join], [Notify], [Remove], [Apply], [Query]).

    Go strings are byte strings ([string] of 8-bit [ascii]); Go's [int] is
    taken as 64 bits wide (the platforms the server is built for), with its
    wrap-around written out. *)

From Stdlib Require Import ZArith Lia Bool String Ascii List DecimalString.
From Stdlib Require DecimalPos.
From stdpp Require Import base option list strings.

Local Open Scope string_scope.
Local Open Scope Z_scope.

(** ** Go byte-string primitives *)

Module GoString.

(** [s[:n]] *)
Fixpoint slice_to (n : nat) (s : string) : string :=
  match n, s with
  | S n', String c s' => String c (slice_to n' s')
  | _, _ => EmptyString
  end.

(** [s[n:]] *)
Fixpoint slice_from (n : nat) (s : string) : string :=
  match n, s with
  | S n', String _ s' => slice_from n' s'
  | _, _ => s
  end.

(** [s[i:j]] *)
Definition slice (i j : nat) (s : string) : string :=
  slice_from i (slice_to j s).

(** [bytealg.IndexByteString]: first position of [c], [None] for -1. *)
Fixpoint IndexByte (s : string) (c : ascii) : option nat :=
  match s with
  | EmptyString => None
  | String a s' =>
      if Ascii.eqb a c then Some O
      else match IndexByte s' c with
           | Some i => Some (S i)
           | None => None
           end
  end.

(** [bytealg.LastIndexByteString]: last position of [c], [None] for -1. *)
Fixpoint LastIndexByte (s : string) (c : ascii) : option nat :=
  match s with
  | EmptyString => None
  | String a s' =>
      match LastIndexByte s' c with
      | Some i => Some (S i)
      | None => if Ascii.eqb a c then Some O else None
      end
  end.

(** [c] occurs in [s]. *)
Fixpoint occurs (c : ascii) (s : string) : Prop :=
  match s with
  | EmptyString => False
  | String a s' => a = c \/ occurs c s'
  end.

End GoString.
Import GoString.

(** ** Go error values *)

Inductive error : Type :=
| AddrError (Err Addr : string)              (* *net.AddrError *)
| NumError (Func Num : string) (Err : error) (* *strconv.NumError *)
| ErrSyntax                                  (* strconv.ErrSyntax *)
| ErrRange                                   (* strconv.ErrRange *)
| errorString (s : string)                   (* an error of another package, by its text *)
| wrapError (prefix : string) (err : error). (* fmt.Errorf(prefix + "%w", err) *)

Inductive result (A : Type) : Type :=
| Ok (a : A)
| Err (e : error).
Arguments Ok {A} a.
Arguments Err {A} e.

Definition is_Err {A} (r : result A) : Prop :=
  match r with Err _ => True | Ok _ => False end.

(** [fmt.Errorf(prefix + "%w", err)] *)
Definition Errorf_w (prefix : string) (err : error) : error := wrapError prefix err.

(** [errors.Unwrap] *)
Definition Unwrap (e : error) : option error :=
  match e with
  | wrapError _ err => Some err
  | NumError _ _ err => Some err
  | _ => None
  end.

Section ErrorText.
(** [strconv.Quote], used by [NumError.Error]; its escaping rules play no
    part here. *)
Variable Quote : string -> string.

(** The [Error()] method. *)
Fixpoint Error (e : error) : string :=
  match e with
  | AddrError why addr =>
      if String.eqb addr "" then why else "address " +:+ addr +:+ ": " +:+ why
  | NumError fn num err =>
      "strconv." +:+ fn +:+ ": parsing " +:+ Quote num +:+ ": " +:+ Error err
  | ErrSyntax => "invalid syntax"
  | ErrRange => "value out of range"
  | errorString s => s
  | wrapError prefix err => prefix +:+ Error err
  end.
End ErrorText.

(** ** [net.SplitHostPort] (Go standard library, net/ipsock.go) *)

Definition missingPort : string := "missing port in address".
Definition tooManyColons : string := "too many colons in address".

Definition addrErr {A} (addr why : string) : result A := Err (AddrError why addr).

Definition has_byte (s : string) (c : ascii) : bool :=
  match IndexByte s c with Some _ => true | None => false end.

Definition SplitHostPort (hostport : string) : result (string * string) :=
  (* The port starts after the last colon. *)
  match LastIndexByte hostport ":" with
  | None => addrErr hostport missingPort
  | Some i =>
      let bracketed :=
        match hostport with String c _ => Ascii.eqb c "[" | _ => false end in
      let checked : result (string * nat * nat) :=
        if bracketed then
          (* Expect the first ']' just before the last ':'. *)
          match IndexByte hostport "]" with
          | None => addrErr hostport "missing ']' in address"
          | Some e =>
              if Nat.eqb (e + 1) (String.length hostport) then
                addrErr hostport missingPort
              else if Nat.eqb (e + 1) i then
                Ok (slice 1 e hostport, 1%nat, (e + 1)%nat)
              else if match String.get (e + 1) hostport with
                      | Some c => Ascii.eqb c ":"
                      | None => false
                      end
              then addrErr hostport tooManyColons
              else addrErr hostport missingPort
          end
        else
          let host := slice_to i hostport in
          if has_byte host ":" then addrErr hostport tooManyColons
          else Ok (host, O, O) in
      match checked with
      | Err e => Err e
      | Ok (host, j, k) =>
          if has_byte (slice_from j hostport) "[" then
            addrErr hostport "unexpected '[' in address"
          else if has_byte (slice_from k hostport) "]" then
            addrErr hostport "unexpected ']' in address"
          else Ok (host, slice_from (i + 1) hostport)
      end
  end.

(** ** [strconv.Atoi] (Go standard library, strconv/atoi.go), base 10 *)

Definition intSize : Z := 64.
Definition maxUint64 : Z := 2 ^ 64 - 1.
Definition maxInt : Z := 2 ^ (intSize - 1) - 1.
Definition minInt : Z := - 2 ^ (intSize - 1).

(** Conversion to [uint64] and to [int] ([int64]): two's complement. *)
Definition to_uint64 (z : Z) : Z := z mod 2 ^ 64.
Definition to_int (z : Z) : Z := (z + 2 ^ 63) mod 2 ^ 64 - 2 ^ 63.

(** [a + b] on [int]. *)
Definition int_add (a b : Z) : Z := to_int (a + b).

Definition syntaxError {A} (fn str : string) : result A := Err (NumError fn str ErrSyntax).
Definition rangeError {A} (fn str : string) : result A := Err (NumError fn str ErrRange).

Definition is_digit (c : ascii) : bool :=
  (48 <=? nat_of_ascii c)%nat && (nat_of_ascii c <=? 57)%nat.

Definition digit_val (c : ascii) : Z := Z.of_nat (nat_of_ascii c) - 48.

(** The digit loop of [ParseUint(s, 10, 64)]; [n] is the [uint64]
    accumulator.  [Err ErrRange] stands for [return maxVal, rangeError]. *)
Fixpoint ParseUint_loop (s0 : string) (s : string) (n : Z) : result Z :=
  match s with
  | EmptyString => Ok n
  | String c s' =>
      if is_digit c then
        let d := digit_val c in
        let cutoff := maxUint64 / 10 + 1 in
        if n >=? cutoff then rangeError "ParseUint" s0  (* n*base overflows *)
        else
          let n := to_uint64 (n * 10) in
          let n1 := to_uint64 (n + d) in
          if (n1 <? n) || (n1 >? maxUint64) then
            rangeError "ParseUint" s0                   (* n+d overflows *)
          else ParseUint_loop s0 s' n1
      else syntaxError "ParseUint" s0
  end.

Definition ParseUint (s : string) : result Z :=
  if String.eqb s "" then syntaxError "ParseUint" s
  else ParseUint_loop s s 0.

Definition ParseInt (s : string) : result Z :=
  if String.eqb s "" then syntaxError "ParseInt" s
  else
    let s0 := s in
    (* Pick off leading sign. *)
    let '(neg, s) :=
      match s with
      | String c s' =>
          if Ascii.eqb c "+" then (false, s')
          else if Ascii.eqb c "-" then (true, s')
          else (false, s)
      | EmptyString => (false, s)
      end in
    (* Convert unsigned and check range. *)
    match ParseUint s with
    | Err (NumError _ _ ErrRange) => rangeError "ParseInt" s0
    | Err _ => syntaxError "ParseInt" s0
    | Ok un =>
        let cutoff := 2 ^ (intSize - 1) in
        if negb neg && (un >=? cutoff) then rangeError "ParseInt" s0
        else if neg && (un >? cutoff) then rangeError "ParseInt" s0
        else
          let n := to_int un in
          Ok (if neg then to_int (- n) else n)
    end.

(** [Atoi] is [ParseInt(s, 10, 0)] converted to [int], with the error's
    [Func] set to "Atoi". *)
Definition Atoi (s : string) : result Z :=
  match ParseInt s with
  | Err (NumError _ num err) => Err (NumError "Atoi" num err)
  | Err e => Err e
  | Ok i64 => Ok (to_int i64)
  end.

(** ** [fmt.Sprintf("%s:%d", host, port)] *)

(** [%d] of an [int]: decimal digits, with a leading '-' when negative. *)
Definition FormatInt (n : Z) : string := NilZero.string_of_int (Z.to_int n).

Definition Sprintf_s_colon_d (host : string) (port : Z) : string :=
  host +:+ ":" +:+ FormatInt port.

(** ** The resolver *)

(** [type rpcAddressResolver interface { Address(raftAddress string) (string, error) }] *)
Class rpcAddressResolver (R : Type) : Type :=
  Address : R -> string -> result string.

Record rpcResolver : Type := {
  isLocalCluster : bool;
  rpcPort : Z
}.

Definition NewRPCResolver (isLocalHost : bool) (rpcPort : Z) : rpcResolver :=
  {| isLocalCluster := isLocalHost; rpcPort := rpcPort |}.

Definition rpcResolver_Address (cl : rpcResolver) (raftAddr : string) : result string :=
  match SplitHostPort raftAddr with
  | Err err => Err err
  | Ok (host, port) =>
      if negb (isLocalCluster cl) then
        Ok (Sprintf_s_colon_d host (rpcPort cl))
      else
        match Atoi port with
        | Err err => Err err
        | Ok iPort => Ok (Sprintf_s_colon_d host (int_add iPort 1))
        end
  end.

#[export] Instance rpcResolver_resolver : rpcAddressResolver rpcResolver :=
  rpcResolver_Address.

(** ** The declarative reading of the resolver's input *)

(** A well-formed host:port pair: either [host:port] with neither part
    holding a colon or a square bracket, or [[host]:port] with no bracket
    inside [host] and neither colon nor bracket inside [port]. *)
Inductive hostport_form (s host port : string) : Prop :=
| plain_form :
    s = host +:+ ":" +:+ port ->
    ~ occurs ":" host -> ~ occurs "[" host -> ~ occurs "]" host ->
    ~ occurs ":" port -> ~ occurs "[" port -> ~ occurs "]" port ->
    hostport_form s host port
| bracket_form :
    s = "[" +:+ host +:+ "]:" +:+ port ->
    ~ occurs "[" host -> ~ occurs "]" host ->
    ~ occurs ":" port -> ~ occurs "[" port -> ~ occurs "]" port ->
    hostport_form s host port.

Definition well_formed_hostport (s : string) : Prop :=
  exists host port, hostport_form s host port.

(** The value of a run of decimal digits, continuing from [acc]. *)
Fixpoint digits_value (s : string) (acc : Z) : option Z :=
  match s with
  | EmptyString => Some acc
  | String c s' =>
      if is_digit c then digits_value s' (10 * acc + digit_val c) else None
  end.

Definition unsigned_value (s : string) : option Z :=
  match s with
  | EmptyString => None
  | _ => digits_value s 0
  end.

(** The integer a text denotes: an optional sign and at least one digit. *)
Definition decimal_value (s : string) : option Z :=
  match s with
  | EmptyString => None
  | String c s' =>
      if Ascii.eqb c "+" then unsigned_value s'
      else if Ascii.eqb c "-" then Z.opp <$> unsigned_value s'
      else unsigned_value s
  end.

(** The port text is an integer (a Go [int]). *)
Definition is_integer (p : string) : Prop :=
  exists n, decimal_value p = Some n /\ minInt <= n <= maxInt.

(** The resolver as the specification words it: the fixed-port mode puts
    the configured port after the host; the offset mode, on a port that is
    an integer, puts that integer plus one. *)
Definition resolver_as_specified (servicePort : Z) : Prop :=
  forall s host port, hostport_form s host port ->
    Address (NewRPCResolver false servicePort) s
      = Ok (host +:+ ":" +:+ FormatInt servicePort) /\
    forall n, decimal_value port = Some n -> minInt <= n <= maxInt ->
      Address (NewRPCResolver true servicePort) s
        = Ok (host +:+ ":" +:+ FormatInt (n + 1)).

(** The offset mode without any check of the port range, as the
    specification words it: host [h], port text [p] of value [n]. *)
Definition offset_adds_one (servicePort : Z) (h p : string) (n : Z) : Prop :=
  Address (NewRPCResolver true servicePort) (h +:+ ":" +:+ p)
    = Ok (h +:+ ":" +:+ FormatInt (n + 1)).

(** The port text is an integer, of whatever size. *)
Definition is_decimal_integer (p : string) : Prop :=
  exists n, decimal_value p = Some n.

(** When the resolver fails, as the specification words it: on an input
    that is no well-formed pair or, in the offset mode only, on a port that
    is not an integer. *)
Definition error_exactly_as_specified (cl : rpcResolver) (s : string) : Prop :=
  is_Err (Address cl s) <->
    ~ well_formed_hostport s \/
    (isLocalCluster cl = true /\
     exists host port, hostport_form s host port /\ ~ is_decimal_integer port).

(** ** The connections and the network *)

(** A [*grpc.ClientConn] is known by its handle; the connection objects
    live in a table indexed by handle. *)
Abbreviation handle := nat (only parsing).

Record ClientConn : Type := {
  target : string;          (* the address dialled *)
  serviceConfig : bool;     (* dialled with grpc.WithDefaultServiceConfig(serviceConfig) *)
  closeCalls : nat          (* how many times Close() was called on it *)
}.

Definition is_open (c : ClientConn) : Prop := closeCalls c = O.
Definition is_closed (c : ClientConn) : Prop := (0 < closeCalls c)%nat.

(** The methods of [cmd.ClusterServiceClient]. *)
Module cmd.
Inductive method : Type := JoinPeer | NotifyPeer | RemovePeer | Apply | Query.
End cmd.

(** What the client does to the outside, in order. *)
Inductive event : Type :=
| EvResolve (raftAddr : string)
| EvDial (addr : string) (conn : option handle)
| EvClose (conn : handle)
| EvCall (m : cmd.method) (conn : handle).

Record world : Type := {
  conns : list ClientConn;
  trace : list event
}.

Definition emptyWorld : world := {| conns := []; trace := [] |}.

Definition log (e : event) (w : world) : world :=
  {| conns := conns w; trace := trace w ++ [e] |}.

(** The part of gRPC and of the remote peers that the client cannot
    see: whether a dial fails, and what a remote call returns. *)
Class Network : Type := {
  context : Type;
  context_Background : context;
  Request : Type;
  Response : Type;
  dial_error : world -> string -> option error;
  invoke : cmd.method -> context -> handle -> Request -> world ->
           option Response * option error
}.

Definition closeConn (c : ClientConn) : ClientConn :=
  {| target := target c; serviceConfig := serviceConfig c;
     closeCalls := S (closeCalls c) |}.

(** [conn.Close()] *)
Definition conn_Close (conn : handle) (w : world) : world :=
  {| conns := alter closeConn conn (conns w);
     trace := trace w ++ [EvClose conn] |}.

(** [grpc.Dial] and [grpc.DialContext]: a new connection object, or [nil]
    and an error. *)
Definition grpc_Dial `{Network} (addr : string) (withServiceConfig : bool)
    (w : world) : result handle * world :=
  match dial_error w addr with
  | Some err => (Err err, log (EvDial addr None) w)
  | None =>
      let conn := length (conns w) in
      (Ok conn,
       {| conns := conns w ++
                   [{| target := addr; serviceConfig := withServiceConfig;
                       closeCalls := O |}];
          trace := trace w ++ [EvDial addr (Some conn)] |})
  end.

(** ** The client *)

Record Client (R : Type) : Type := {
  rpc : R;
  leaderAddr : string;
  leaderConn : option handle
}.
Arguments rpc {R} _.
Arguments leaderAddr {R} _.
Arguments leaderConn {R} _.

Definition NewClient {R} (r : R) : Client R :=
  {| rpc := r; leaderAddr := ""; leaderConn := None |}.

Section ClientOps.
Context {R : Type} `{!rpcAddressResolver R} `{!Network}.

Definition reply : Type := option Response * option error.

(** [connLock] is held for the whole of [getConn]: the calls are taken
    one at a time.  In [cl.leaderConn, err = grpc.Dial(...)] a failed
    dial stores the nil connection it returns. *)
Definition getConn (leaderAddress : string) (cl : Client R) (w : world)
    : result handle * Client R * world :=
  match leaderConn cl, String.eqb leaderAddress (leaderAddr cl) with
  | Some conn, true => (Ok conn, cl, w)
  | _, _ =>
      let w :=
        match leaderConn cl with
        | Some conn => conn_Close conn w  (* close open conn if leader addr changed *)
        | None => w
        end in
      let w := log (EvResolve leaderAddress) w in
      match Address (rpc cl) leaderAddress with
      | Err err => (Err (Errorf_w "resolve address: " err), cl, w)
      | Ok addr =>
          match grpc_Dial addr true w with
          | (Err err, w) =>
              (Err (Errorf_w "dial: " err),
               {| rpc := rpc cl; leaderAddr := leaderAddr cl; leaderConn := None |},
               w)
          | (Ok conn, w) =>
              (Ok conn,
               {| rpc := rpc cl; leaderAddr := leaderAddress;
                  leaderConn := Some conn |},
               w)
          end
      end
  end.

Definition Close (cl : Client R) (w : world) : Client R * world :=
  match leaderConn cl with
  | Some conn => (cl, conn_Close conn w)
  | None => (cl, w)
  end.

(** The body shared by [Join], [Remove], [Apply] and [Query]: get the
    leader connection, then make the call on it. *)
Definition callLeader (m : cmd.method) (ctx : context) (leaderAddress : string)
    (req : Request) (cl : Client R) (w : world) : reply * Client R * world :=
  match getConn leaderAddress cl w with
  | (Err err, cl, w) => ((None, Some err), cl, w)
  | (Ok conn, cl, w) => (invoke m ctx conn req w, cl, log (EvCall m conn) w)
  end.

Definition Join (ctx : context) (leaderAddress : string) (req : Request) :=
  callLeader cmd.JoinPeer ctx leaderAddress req.

Definition Remove (ctx : context) (leaderAddress : string) (req : Request) :=
  callLeader cmd.RemovePeer ctx leaderAddress req.

Definition Apply (leaderAddr : string) (req : Request) :=
  callLeader cmd.Apply context_Background leaderAddr req.

Definition Query (ctx : context) (leaderAddress : string) (req : Request) :=
  callLeader cmd.Query ctx leaderAddress req.

Definition Notify (ctx : context) (rAddr : string) (req : Request)
    (cl : Client R) (w : world) : reply * Client R * world :=
  let w := log (EvResolve rAddr) w in
  match Address (rpc cl) rAddr with
  | Err err => ((None, Some (Errorf_w "resolve address: " err)), cl, w)
  | Ok addr =>
      match grpc_Dial addr false w with
      | (Err err, w) => ((None, Some (Errorf_w "dial: " err)), cl, w)
      | (Ok conn, w) =>
          let r := invoke cmd.NotifyPeer ctx conn req w in
          let w := log (EvCall cmd.NotifyPeer conn) w in
          (* defer conn.Close() *)
          (r, cl, conn_Close conn w)
      end
  end.

(** A call of one of the client's methods. *)
Inductive op : Type :=
| OpJoin (ctx : context) (leaderAddress : string) (req : Request)
| OpNotify (ctx : context) (rAddr : string) (req : Request)
| OpRemove (ctx : context) (leaderAddress : string) (req : Request)
| OpApply (leaderAddr : string) (req : Request)
| OpQuery (ctx : context) (leaderAddress : string) (req : Request)
| OpClose.

Definition step (o : op) (cl : Client R) (w : world)
    : option reply * Client R * world :=
  match o with
  | OpJoin ctx a req => let '(r, cl, w) := Join ctx a req cl w in (Some r, cl, w)
  | OpNotify ctx a req => let '(r, cl, w) := Notify ctx a req cl w in (Some r, cl, w)
  | OpRemove ctx a req => let '(r, cl, w) := Remove ctx a req cl w in (Some r, cl, w)
  | OpApply a req => let '(r, cl, w) := Apply a req cl w in (Some r, cl, w)
  | OpQuery ctx a req => let '(r, cl, w) := Query ctx a req cl w in (Some r, cl, w)
  | OpClose => let '(cl, w) := Close cl w in (None, cl, w)
  end.

Fixpoint run (os : list op) (cl : Client R) (w : world) : Client R * world :=
  match os with
  | [] => (cl, w)
  | o :: os => let '(_, cl, w) := step o cl w in run os cl w
  end.

(** [getConn] with the same address [n] times over; the handles returned. *)
Fixpoint getConn_repeat (n : nat) (addr : string) (cl : Client R) (w : world)
    : list (result handle) * Client R * world :=
  match n with
  | O => ([], cl, w)
  | S n =>
      let '(r, cl, w) := getConn addr cl w in
      let '(rs, cl, w) := getConn_repeat n addr cl w in
      (r :: rs, cl, w)
  end.
End ClientOps.

(** ** A concrete network, for running the model *)

(** Every dial succeeds except to [refused]; every remote call answers
    with the name of the node it reached. *)
Definition labNetwork (refused : string) : Network := {|
  context := unit;
  context_Background := tt;
  Request := string;
  Response := string;
  dial_error := fun _ addr =>
    if String.eqb addr refused then Some (errorString "connection refused")
    else None;
  invoke := fun _ _ conn _ w =>
    match conns w !! conn with
    | Some c =>
        if Nat.eqb (closeCalls c) 0 then (Some (target c), None)
        else (None, Some (errorString "grpc: the client connection is closing"))
    | None => (None, Some (errorString "no such connection"))
    end
|}.

(** Two networks and a resolver to run the client on. *)
Definition reachableNetwork : Network := labNetwork "".
Definition n2DownNetwork : Network := labNetwork "n2:8300".
Definition lab_resolver : rpcResolver := NewRPCResolver false 8300.

(** A fresh client, and the client and the world after its first call
    on the leader "n1:7000". *)
Definition cl_new : Client rpcResolver := NewClient lab_resolver.

Definition cl_n1 : Client rpcResolver :=
  {| rpc := lab_resolver; leaderAddr := "n1:7000"; leaderConn := Some O |}.

Definition w_n1 : world :=
  {| conns := [{| target := "n1:8300"; serviceConfig := true; closeCalls := O |}];
     trace := [EvResolve "n1:7000"; EvDial "n1:8300" (Some O)] |}.

(** ** The cache, as the client code and as the specification see it *)

(** Events of one kind in a trace. *)
Definition is_dial (e : event) : bool :=
  match e with EvDial _ (Some _) => true | _ => false end.

Fixpoint count (p : event -> bool) (tr : list event) : nat :=
  match tr with
  | [] => O
  | e :: tr => if p e then S (count p tr) else count p tr
  end.

Definition dials (w : world) : nat := count is_dial (trace w).

(** Every connection of [w] is still in [w'], with the target it had. *)
Definition extends (w w' : world) : Prop :=
  forall conn c, conns w !! conn = Some c ->
    exists c', conns w' !! conn = Some c' /\ target c' = target c.

Section CacheSpec.
Context {R : Type} `{!rpcAddressResolver R} `{!Network}.

(** The world in which [getConn] dials on a cache miss: the stale
    connection closed, the resolution logged. *)
Definition miss_world (leaderAddress : string) (cl : Client R) (w : world) : world :=
  log (EvResolve leaderAddress)
      (match leaderConn cl with
       | Some conn => conn_Close conn w
       | None => w
       end).

(** [leaderAddr] is a string: the empty string, its zero value, is the
    absent address. *)
Definition boundAddress (cl : Client R) : option string :=
  if String.eqb (leaderAddr cl) "" then None else Some (leaderAddr cl).

(** Connection [conn] was dialled at the RPC address of [raftAddr]. *)
Definition dialled_for (cl : Client R) (w : world) (conn : handle)
    (raftAddr : string) : Prop :=
  exists c, conns w !! conn = Some c /\ Address (rpc cl) raftAddr = Ok (target c).

(** The invariant the code keeps: a cached connection is one of the
    table, dialled for the address held in [leaderAddr]. *)
Definition cache_ok (cl : Client R) (w : world) : Prop :=
  forall conn, leaderConn cl = Some conn -> dialled_for cl w conn (leaderAddr cl).

(** The invariant as the specification words it. *)
Definition cache_invariant_as_specified (cl : Client R) (w : world) : Prop :=
  (is_Some (leaderConn cl) <-> is_Some (boundAddress cl)) /\
  forall conn a, leaderConn cl = Some conn -> boundAddress cl = Some a ->
    dialled_for cl w conn a.

(** [Close] as the specification words it: the cache is left empty, and
    whatever address comes next, the handle returned is newly dialled and
    not the one cached before. *)
Definition Close_empties_cache (cl : Client R) (w : world) : Prop :=
  let '(cl', w') := Close cl w in
  leaderConn cl' = None /\ boundAddress cl' = None /\
  forall a conn cl'' w'',
    getConn a cl' w' = (Ok conn, cl'', w'') ->
    leaderConn cl <> Some conn /\ dials w'' = S (dials w').


(** How a call comes by its connection. *)
Inductive conn_phase : Type :=
| ResolveFailed (err : error)
| DialFailed (err : error)
| Connected (conn : handle) (w : world).

(** Resolve and dial in world [w]. *)
Definition establish (raftAddr : string) (withServiceConfig : bool)
    (cl : Client R) (w : world) : conn_phase :=
  match Address (rpc cl) raftAddr with
  | Err err => ResolveFailed err
  | Ok addr =>
      match dial_error w addr with
      | Some err => DialFailed err
      | None =>
          Connected (length (conns w))
            {| conns := conns w ++
                 [{| target := addr; serviceConfig := withServiceConfig;
                     closeCalls := O |}];
               trace := trace w ++ [EvDial addr (Some (length (conns w)))] |}
      end
  end.

(** The phase of a call on the leader: the cached connection when the
    address is the cached one, a resolution and a dial otherwise. *)
Definition leader_phase (leaderAddress : string) (cl : Client R) (w : world)
    : conn_phase :=
  match leaderConn cl with
  | Some conn =>
      if String.eqb leaderAddress (leaderAddr cl) then Connected conn w
      else establish leaderAddress true cl (miss_world leaderAddress cl w)
  | None => establish leaderAddress true cl (miss_world leaderAddress cl w)
  end.

(** The phase of an operation, and the remote call it makes. *)
Definition op_phase (o : op) (cl : Client R) (w : world)
    : option (conn_phase * cmd.method * context * Request) :=
  match o with
  | OpJoin ctx a req => Some (leader_phase a cl w, cmd.JoinPeer, ctx, req)
  | OpRemove ctx a req => Some (leader_phase a cl w, cmd.RemovePeer, ctx, req)
  | OpApply a req => Some (leader_phase a cl w, cmd.Apply, context_Background, req)
  | OpQuery ctx a req => Some (leader_phase a cl w, cmd.Query, ctx, req)
  | OpNotify ctx a req =>
      Some (establish a false cl (log (EvResolve a) w), cmd.NotifyPeer, ctx, req)
  | OpClose => None
  end.

(** What the specification promises of the reply. *)
Definition reply_as_specified (ph : conn_phase) (m : cmd.method) (ctx : context)
    (req : Request) : reply :=
  match ph with
  | ResolveFailed err => (None, Some (Errorf_w "resolve address: " err))
  | DialFailed err => (None, Some (Errorf_w "dial: " err))
  | Connected conn w => invoke m ctx conn req w
  end.
End CacheSpec.

(** ** Resolving again what the resolver returned *)

(** [Address] applied [k] times over, each time to the address returned
    the time before. *)
Fixpoint resolve_times (k : nat) (cl : rpcResolver) (s : string) : result string :=
  match k with
  | O => Ok s
  | S k =>
      match Address cl s with
      | Ok s' => resolve_times k cl s'
      | Err err => Err err
      end
  end.

(** ** The connections a client leaves behind *)

(** The cached handle is one of the table; every open connection of the
    table is the cached one, and the cached one was dialled with the service
    configuration. *)
Definition pool_ok {R} (cl : Client R) (w : world) : Prop :=
  (forall conn, leaderConn cl = Some conn -> (conn < length (conns w))%nat) /\
  forall conn c, conns w !! conn = Some c ->
    (is_open c -> leaderConn cl = Some conn) /\
    (leaderConn cl = Some conn -> serviceConfig c = true).

(** * Byte strings: slicing and searching *)

Module GoStringFacts.

(* stdpp switches [simpl] off for [String.append]; the proofs below go
   by unfolding it. *)
#[local] Arguments String.append !s1 s2 : simpl nomatch.

Lemma append_nil_r (s : string) : s +:+ "" = s.
Proof. induction s as [|c s IH]; simpl; [reflexivity | now rewrite IH]. Qed.

Lemma append_assoc (s t u : string) : (s +:+ t) +:+ u = s +:+ (t +:+ u).
Proof. induction s as [|c s IH]; simpl; [reflexivity | now rewrite IH]. Qed.

Lemma length_append (s t : string) :
  String.length (s +:+ t) = (String.length s + String.length t)%nat.
Proof. induction s as [|c s IH]; simpl; [reflexivity | now rewrite IH]. Qed.

Lemma slice_to_append (u v : string) : slice_to (String.length u) (u +:+ v) = u.
Proof. induction u as [|c u IH]; simpl; [now destruct v | now rewrite IH]. Qed.

Lemma slice_from_append (u v : string) : slice_from (String.length u) (u +:+ v) = v.
Proof. induction u as [|c u IH]; simpl; [now destruct v | exact IH]. Qed.

Lemma slice_from_0 (s : string) : slice_from 0 s = s.
Proof. now destruct s. Qed.

Lemma slice_to_from (n : nat) (s : string) : slice_to n s +:+ slice_from n s = s.
Proof.
  revert s; induction n as [|n IH]; intros [|c s]; simpl; try reflexivity.
  now rewrite IH.
Qed.

Lemma occurs_append (c : ascii) (u v : string) :
  occurs c (u +:+ v) <-> occurs c u \/ occurs c v.
Proof. induction u as [|a u IH]; simpl; tauto. Qed.

Lemma append_same_length (u u' v v' : string) :
  u +:+ v = u' +:+ v' -> String.length u = String.length u' ->
  u = u' /\ v = v'.
Proof.
  revert u'; induction u as [|a u IH]; intros [|a' u']; simpl;
    intros E L; try discriminate; [now split|].
  injection E as -> E. injection L as L.
  destruct (IH _ E L) as [-> ->]. now split.
Qed.

Lemma occurs_dec (c : ascii) (s : string) : {occurs c s} + {~ occurs c s}.
Proof.
  induction s as [|a s [IH|IH]]; simpl.
  - right; tauto.
  - left; now right.
  - destruct (Ascii.eqb_spec a c) as [->|N]; [left; now left | right; tauto].
Defined.

Lemma IndexByte_None (s : string) (c : ascii) :
  IndexByte s c = None <-> ~ occurs c s.
Proof.
  induction s as [|a s IH]; simpl; [tauto|].
  destruct (Ascii.eqb_spec a c) as [->|N].
  - split; [discriminate | intros H; exfalso; apply H; now left].
  - destruct (IndexByte s c).
    + split; [discriminate|]. intros H. exfalso. apply H. right.
      destruct (occurs_dec c s) as [O|O]; [exact O|].
      apply IH in O. discriminate.
    + split; [|reflexivity]. intros _ [E|O]; [contradiction|].
      now apply IH in O.
Qed.

Lemma IndexByte_Some (s : string) (c : ascii) (i : nat) :
  IndexByte s c = Some i ->
  exists u v, s = u +:+ String c v /\ ~ occurs c u /\ String.length u = i.
Proof.
  revert i; induction s as [|a s IH]; simpl; intros i; [discriminate|].
  destruct (Ascii.eqb_spec a c) as [->|N].
  - intros [= <-]. exists "", s. simpl. tauto.
  - destruct (IndexByte s c) as [j|]; [|discriminate].
    intros [= <-]. destruct (IH j eq_refl) as (u & v & -> & Hu & <-).
    exists (String a u), v. simpl. tauto.
Qed.

Lemma IndexByte_append (u v : string) (c : ascii) :
  ~ occurs c u -> IndexByte (u +:+ String c v) c = Some (String.length u).
Proof.
  induction u as [|a u IH]; simpl; intros Hu.
  - now rewrite Ascii.eqb_refl.
  - destruct (Ascii.eqb_spec a c) as [->|N]; [tauto|].
    rewrite IH; [reflexivity | tauto].
Qed.

Lemma LastIndexByte_None (s : string) (c : ascii) :
  LastIndexByte s c = None <-> ~ occurs c s.
Proof.
  induction s as [|a s IH]; simpl; [tauto|].
  destruct (LastIndexByte s c).
  - split; [discriminate|]. intros H. exfalso. apply H. right.
    destruct (occurs_dec c s) as [O|O]; [exact O|].
    apply IH in O. discriminate.
  - destruct (Ascii.eqb_spec a c) as [->|N].
    + split; [discriminate | intros H; exfalso; apply H; now left].
    + split; [|reflexivity]. intros _ [E|O]; [contradiction|].
      now apply IH in O.
Qed.

Lemma LastIndexByte_Some (s : string) (c : ascii) (i : nat) :
  LastIndexByte s c = Some i ->
  exists u v, s = u +:+ String c v /\ ~ occurs c v /\ String.length u = i.
Proof.
  revert i; induction s as [|a s IH]; simpl; intros i; [discriminate|].
  destruct (LastIndexByte s c) as [j|] eqn:E.
  - intros [= <-]. destruct (IH j eq_refl) as (u & v & -> & Hv & <-).
    exists (String a u), v. simpl. tauto.
  - destruct (Ascii.eqb_spec a c) as [->|N]; [|discriminate].
    intros [= <-]. exists "", s. simpl. apply LastIndexByte_None in E. tauto.
Qed.

Lemma LastIndexByte_append (u v : string) (c : ascii) :
  ~ occurs c v -> LastIndexByte (u +:+ String c v) c = Some (String.length u).
Proof.
  intros Hv. induction u as [|a u IH]; simpl.
  - apply LastIndexByte_None in Hv. rewrite Hv. now rewrite Ascii.eqb_refl.
  - now rewrite IH.
Qed.

Lemma has_byte_false (s : string) (c : ascii) :
  has_byte s c = false <-> ~ occurs c s.
Proof.
  unfold has_byte. rewrite <- IndexByte_None.
  destruct (IndexByte s c); split; congruence.
Qed.

Lemma has_byte_true (s : string) (c : ascii) :
  has_byte s c = true <-> occurs c s.
Proof.
  destruct (occurs_dec c s) as [O|O].
  - split; [tauto|]. intros _. destruct (has_byte s c) eqn:E; [reflexivity|].
    apply has_byte_false in E. contradiction.
  - apply has_byte_false in O. rewrite O. split; [discriminate | intros O'].
    apply has_byte_false in O. contradiction.
Qed.

Lemma get_append (u v : string) (c : ascii) :
  String.get (String.length u) (u +:+ String c v) = Some c.
Proof. induction u as [|a u IH]; simpl; [reflexivity | exact IH]. Qed.

End GoStringFacts.
Import GoStringFacts.

(** * [net.SplitHostPort] accepts exactly the well-formed pairs *)

Section SplitHostPortFacts.
#[local] Arguments String.append !s1 s2 : simpl nomatch.

Lemma SplitHostPort_plain (host port : string) :
  ~ occurs ":" host -> ~ occurs "[" host -> ~ occurs "]" host ->
  ~ occurs ":" port -> ~ occurs "[" port -> ~ occurs "]" port ->
  SplitHostPort (host +:+ ":" +:+ port) = Ok (host, port).
Proof.
  intros Hc Hl Hr Pc Pl Pr. unfold SplitHostPort.
  change (":" +:+ port) with (String ":" port).
  rewrite LastIndexByte_append by assumption.
  assert (match host +:+ String ":" port with
          | String c _ => Ascii.eqb c "[" | _ => false end = false) as ->.
  { destruct host as [|a host]; simpl; [reflexivity|].
    apply Ascii.eqb_neq. simpl in Hl. tauto. }
  rewrite slice_to_append.
  assert (has_byte host ":" = false) as -> by now apply has_byte_false.
  simpl slice_from at 1 2.
  assert (forall c, ~ occurs c host -> ~ occurs c port -> c <> ":"%char ->
            has_byte (slice_from 0 (host +:+ String ":" port)) c = false) as H.
  { intros c H1 H2 H3. rewrite slice_from_0. apply has_byte_false.
    rewrite occurs_append. simpl. intuition congruence. }
  rewrite !H by (assumption || discriminate).
  replace (String.length host + 1)%nat
    with (String.length (host +:+ ":")) by (rewrite length_append; reflexivity).
  rewrite <- (slice_from_append (host +:+ ":") port) at 2.
  now rewrite append_assoc.
Qed.

Lemma SplitHostPort_bracket (host port : string) :
  ~ occurs "[" host -> ~ occurs "]" host ->
  ~ occurs ":" port -> ~ occurs "[" port -> ~ occurs "]" port ->
  SplitHostPort ("[" +:+ host +:+ "]:" +:+ port) = Ok (host, port).
Proof.
  intros Hl Hr Pc Pl Pr. unfold SplitHostPort.
  set (s := "[" +:+ host +:+ "]:" +:+ port).
  assert (Es : s = String "[" host +:+ String "]" (String ":" port))
    by reflexivity.
  assert (Es' : s = (String "[" host +:+ "]") +:+ String ":" port)
    by (subst s; simpl; now rewrite append_assoc).
  assert (Li : LastIndexByte s ":" = Some (String.length host + 2)%nat).
  { rewrite Es', LastIndexByte_append by assumption.
    rewrite length_append. simpl. f_equal. lia. }
  assert (Le : IndexByte s "]" = Some (String.length host + 1)%nat).
  { rewrite Es, IndexByte_append.
    - simpl. f_equal. lia.
    - simpl. intros [E|O]; [discriminate | contradiction]. }
  rewrite Li, Le. simpl (match s with String c _ => _ | _ => _ end).
  assert (Nat.eqb (String.length host + 1 + 1) (String.length s) = false) as ->.
  { apply Nat.eqb_neq. rewrite Es, length_append. simpl. lia. }
  assert (Nat.eqb (String.length host + 1 + 1) (String.length host + 2) = true)
    as -> by (apply Nat.eqb_eq; lia).
  assert (slice_from 1 s = host +:+ String "]" (String ":" port)) as ->
    by reflexivity.
  assert (has_byte (host +:+ String "]" (String ":" port)) "[" = false) as ->.
  { apply has_byte_false. rewrite occurs_append. simpl. intuition congruence. }
  assert (slice_from (String.length host + 1 + 1) s = String ":" port) as ->.
  { replace (String.length host + 1 + 1)%nat
      with (String.length (String "[" host +:+ "]"))
      by (rewrite length_append; simpl; lia).
    rewrite Es'. apply slice_from_append. }
  assert (has_byte (String ":" port) "]" = false) as ->.
  { apply has_byte_false. simpl. intuition congruence. }
  f_equal. f_equal.
  - unfold slice.
    replace (String.length host + 1)%nat with (String.length (String "[" host))
      by (simpl; lia).
    rewrite Es, slice_to_append. reflexivity.
  - replace (String.length host + 2 + 1)%nat
      with (String.length ((String "[" host +:+ "]") +:+ ":"))
      by (rewrite !length_append; simpl; lia).
    rewrite Es', <- (append_assoc _ ":" port). apply slice_from_append.
Qed.

Lemma SplitHostPort_complete (s host port : string) :
  hostport_form s host port -> SplitHostPort s = Ok (host, port).
Proof.
  intros [-> ? ? ? ? ? ?| -> ? ? ? ? ?];
    [now apply SplitHostPort_plain | now apply SplitHostPort_bracket].
Qed.

Lemma SplitHostPort_sound (s host port : string) :
  SplitHostPort s = Ok (host, port) -> hostport_form s host port.
Proof.
  unfold SplitHostPort.
  destruct (LastIndexByte s ":") as [i|] eqn:Li; [|discriminate].
  destruct (LastIndexByte_Some _ _ _ Li) as (u & v & Es & Hv & Lu).
  destruct (match s with String c _ => Ascii.eqb c "[" | _ => false end) eqn:B.
  - (* [host]:port *)
    destruct (IndexByte s "]") as [e|] eqn:Le; [|discriminate].
    destruct (Nat.eqb (e + 1) (String.length s)); [discriminate|].
    destruct (Nat.eqb_spec (e + 1) i) as [Ei|_];
      [|destruct (match String.get (e + 1) s with Some c => _ | None => _ end);
        discriminate].
    destruct (has_byte (slice_from 1 s) "[") eqn:H1; [discriminate|].
    destruct (has_byte (slice_from (e + 1) s) "]") eqn:H2; [discriminate|].
    intros [= <- <-].
    destruct (IndexByte_Some _ _ _ Le) as (u' & v' & Es' & Hu' & Lu').
    destruct s as [|c s1]; [discriminate|].
    apply Ascii.eqb_eq in B. subst c.
    destruct u' as [|c h]; [discriminate Es'|].
    simpl in Es'. injection Es' as <- Es1. simpl in Lu'.
    (* the two splittings of [s] agree *)
    assert (Eu : u = String "[" h +:+ "]" /\ String ":" v = v').
    { apply append_same_length.
      - rewrite append_assoc. simpl. rewrite <- Es. simpl. now rewrite Es1.
      - rewrite length_append. simpl. lia. }
    destruct Eu as [-> <-].
    apply has_byte_false in H1, H2. simpl in H1.
    rewrite Es1 in H1. rewrite occurs_append in H1. simpl in H1.
    assert (slice_from (e + 1) (String "[" s1) = String ":" v) as E2.
    { replace (e + 1)%nat with (String.length (String "[" h +:+ "]"))
        by (rewrite length_append; simpl; lia).
      rewrite Es. apply slice_from_append. }
    rewrite E2 in H2. simpl in H2.
    assert (slice 1 e (String "[" s1) = h) as ->.
    { unfold slice. rewrite <- Lu'.
      replace (String "[" s1) with (String "[" h +:+ String "]" (String ":" v))
        by (simpl; now rewrite Es1).
      change (S (String.length h)) with (String.length (String "[" h)).
      rewrite slice_to_append. reflexivity. }
    assert (slice_from (i + 1) (String "[" s1) = v) as ->.
    { replace (i + 1)%nat with (String.length ((String "[" h +:+ "]") +:+ ":"))
        by (rewrite !length_append; simpl; lia).
      rewrite Es, <- (append_assoc _ ":" v). apply slice_from_append. }
    apply bracket_form; try tauto.
    + simpl. now rewrite Es1.
    + simpl in Hu'. tauto.
  - (* host:port *)
    destruct (has_byte (slice_to i s) ":") eqn:H0; [discriminate|].
    destruct (has_byte (slice_from 0 s) "[") eqn:H1; [discriminate|].
    destruct (has_byte (slice_from 0 s) "]") eqn:H2; [discriminate|].
    intros [= <- <-].
    rewrite slice_from_0 in H1, H2.
    apply has_byte_false in H0, H1, H2.
    assert (slice_to i s = u) as E1 by (subst i s; apply slice_to_append).
    assert (slice_from (i + 1) s = v) as E2.
    { replace (i + 1)%nat with (String.length (u +:+ ":"))
        by (rewrite length_append; simpl; lia).
      rewrite Es. change (String ":" v) with (":" +:+ v).
      rewrite <- append_assoc. apply slice_from_append. }
    rewrite E1, E2 in *. rewrite Es in H1, H2.
    rewrite occurs_append in H1, H2. simpl in H1, H2.
    apply plain_form; tauto.
Qed.

Lemma SplitHostPort_spec (s host port : string) :
  SplitHostPort s = Ok (host, port) <-> hostport_form s host port.
Proof. split; [apply SplitHostPort_sound | apply SplitHostPort_complete]. Qed.

Lemma SplitHostPort_Err (s : string) :
  is_Err (SplitHostPort s) <-> ~ well_formed_hostport s.
Proof.
  split.
  - intros E (host & port & F). apply SplitHostPort_complete in F.
    rewrite F in E. exact E.
  - intros N. destruct (SplitHostPort s) as [[host port]|e] eqn:E; [|exact I].
    exfalso. apply N. exists host, port. now apply SplitHostPort_sound.
Qed.
End SplitHostPortFacts.

(** * [strconv.Atoi] accepts exactly the texts of the integers of type [int] *)

Section AtoiFacts.

Lemma digit_val_range (c : ascii) : is_digit c = true -> 0 <= digit_val c <= 9.
Proof.
  unfold is_digit, digit_val. rewrite andb_true_iff.
  intros [L U]. apply Nat.leb_le in L, U. lia.
Qed.

Lemma digits_value_ge (s : string) (acc m : Z) :
  0 <= acc -> digits_value s acc = Some m -> acc <= m.
Proof.
  revert acc; induction s as [|c s IH]; simpl; intros acc Hacc.
  - intros [= <-]. lia.
  - destruct (is_digit c) eqn:D; [|discriminate].
    apply digit_val_range in D. intros E. apply IH in E; lia.
Qed.

Lemma to_uint64_small (z : Z) : 0 <= z <= maxUint64 -> to_uint64 z = z.
Proof. unfold to_uint64, maxUint64. intros H. apply Z.mod_small. lia. Qed.

Lemma to_int_small (z : Z) : minInt <= z <= maxInt -> to_int z = z.
Proof.
  unfold to_int, minInt, maxInt, intSize.
  change (2 ^ (64 - 1)) with (2 ^ 63). intros H.
  rewrite Z.mod_small; lia.
Qed.

Lemma ParseUint_loop_Ok (s0 s : string) (n m : Z) :
  0 <= n <= maxUint64 ->
  ParseUint_loop s0 s n = Ok m <-> digits_value s n = Some m /\ m <= maxUint64.
Proof.
  revert n; induction s as [|c s IH]; simpl; intros n Hn.
  - split; [intros [= <-]; split; [reflexivity | lia] | intros [[= <-] _]; reflexivity].
  - destruct (is_digit c) eqn:D; [|split; [discriminate | intros [[=] _]]].
    pose proof (digit_val_range c D) as Hd.
    unfold maxUint64 in *.
    change (2 ^ 64 - 1) with 18446744073709551615 in *.
    change (18446744073709551615 / 10 + 1) with 1844674407370955162.
    destruct (Z.geb_spec n 1844674407370955162) as [G|G].
    { split; [discriminate|]. intros [E M]. exfalso.
      apply digits_value_ge in E; lia. }
    rewrite (to_uint64_small (n * 10)) by (unfold maxUint64; lia).
    unfold to_uint64. change (2 ^ 64) with 18446744073709551616.
    destruct (Z_lt_le_dec (n * 10 + digit_val c) 18446744073709551616) as [S|S].
    + rewrite Z.mod_small by lia.
      destruct (Z.ltb_spec (n * 10 + digit_val c) (n * 10)); [lia|].
      destruct (Z.gtb_spec (n * 10 + digit_val c) 18446744073709551615); [lia|].
      simpl. rewrite IH by lia.
      now replace (10 * n + digit_val c) with (n * 10 + digit_val c) by lia.
    + assert ((n * 10 + digit_val c) mod 18446744073709551616
              = n * 10 + digit_val c - 18446744073709551616) as ->.
      { symmetry. apply Z.mod_unique_pos with (q := 1); lia. }
      destruct (Z.ltb_spec (n * 10 + digit_val c - 18446744073709551616) (n * 10));
        [|lia].
      simpl. split; [discriminate|]. intros [E M]. exfalso.
      apply digits_value_ge in E; lia.
Qed.

Lemma digits_value_nonneg (s : string) (m : Z) : digits_value s 0 = Some m -> 0 <= m.
Proof. apply digits_value_ge. lia. Qed.

Lemma ParseUint_Ok (s : string) (m : Z) :
  ParseUint s = Ok m <-> unsigned_value s = Some m /\ m <= maxUint64.
Proof.
  unfold ParseUint, unsigned_value. destruct s as [|c s].
  - simpl. split; [discriminate | intros [[=] _]].
  - change (String.eqb (String c s) "") with false. cbv iota.
    apply ParseUint_loop_Ok. unfold maxUint64. lia.
Qed.

Lemma unsigned_value_nonneg (s : string) (m : Z) :
  unsigned_value s = Some m -> 0 <= m.
Proof. destruct s; [discriminate | apply digits_value_nonneg]. Qed.

(** The range check of [ParseInt] after the sign has been picked off. *)
Lemma ParseInt_range (neg : bool) (t s0 : string) (n : Z) :
  match ParseUint t with
  | Err (NumError _ _ ErrRange) => rangeError "ParseInt" s0
  | Err _ => syntaxError "ParseInt" s0
  | Ok un =>
      let cutoff := 2 ^ (intSize - 1) in
      if negb neg && (un >=? cutoff) then rangeError "ParseInt" s0
      else if neg && (un >? cutoff) then rangeError "ParseInt" s0
      else
        let n := to_int un in
        Ok (if neg then to_int (- n) else n)
  end = Ok n
  <-> exists un, unsigned_value t = Some un /\
                 n = (if neg then - un else un) /\ minInt <= n <= maxInt.
Proof.
  unfold minInt, maxInt, intSize.
  change (2 ^ (64 - 1)) with 9223372036854775808.
  destruct (ParseUint t) as [un|e] eqn:P.
  - apply ParseUint_Ok in P. destruct P as [U M].
    pose proof (unsigned_value_nonneg _ _ U) as N0.
    unfold maxUint64 in M. change (2 ^ 64 - 1) with 18446744073709551615 in M.
    cbv zeta. unfold to_int.
    change (2 ^ 63) with 9223372036854775808.
    change (2 ^ 64) with 18446744073709551616.
    destruct neg; simpl negb; simpl andb.
    + destruct (Z.gtb_spec un 9223372036854775808) as [G|G].
      * split; [discriminate|]. intros (un' & U' & -> & R).
        rewrite U in U'. injection U' as <-. lia.
      * assert (E : ((un + 9223372036854775808) mod 18446744073709551616
                     - 9223372036854775808) = if Z.eq_dec un 9223372036854775808
                                              then - un else un).
        { destruct (Z.eq_dec un 9223372036854775808) as [->|D]; [reflexivity|].
          rewrite Z.mod_small; lia. }
        rewrite E.
        assert (E' : (- (if Z.eq_dec un 9223372036854775808 then - un else un)
                      + 9223372036854775808) mod 18446744073709551616
                     - 9223372036854775808 = - un).
        { destruct (Z.eq_dec un 9223372036854775808) as [->|D]; [reflexivity|].
          rewrite Z.mod_small; lia. }
        rewrite E'. split.
        -- intros [= <-]. exists un. repeat split; (assumption || lia).
        -- intros (un' & U' & -> & R). rewrite U in U'. now injection U' as <-.
    + destruct (Z.geb_spec un 9223372036854775808) as [G|G].
      * split; [discriminate|]. intros (un' & U' & -> & R).
        rewrite U in U'. injection U' as <-. lia.
      * rewrite Z.mod_small by lia. split.
        -- intros [= <-]. exists un. repeat split; (assumption || lia).
        -- intros (un' & U' & -> & R). rewrite U in U'. injection U' as <-.
           f_equal. lia.
  - assert (F : forall x y : result Z, match e with
                | NumError _ _ ErrRange => x | _ => y end = Ok n -> x = Ok n \/ y = Ok n).
    { intros x y. destruct e as [| ? ? []| | | |]; tauto. }
    split.
    + intros H. apply F in H. destruct H; discriminate.
    + intros (un & U & -> & R). exfalso.
      pose proof (unsigned_value_nonneg _ _ U) as N0.
      assert (ParseUint t = Ok un) as P'.
      { apply ParseUint_Ok. split; [assumption|]. unfold maxUint64.
        change (2 ^ 64 - 1) with 18446744073709551615. destruct neg; lia. }
      congruence.
Qed.

Lemma ParseInt_Ok (s : string) (n : Z) :
  ParseInt s = Ok n <-> decimal_value s = Some n /\ minInt <= n <= maxInt.
Proof.
  unfold ParseInt, decimal_value. destruct s as [|c s].
  - simpl. split; [discriminate | intros [[=] _]].
  - change (String.eqb (String c s) "") with false. cbv iota.
    destruct (Ascii.eqb c "+") eqn:Ep; [|destruct (Ascii.eqb c "-") eqn:Em].
    + rewrite (ParseInt_range false). split.
      * intros (un & U & -> & R). now split.
      * intros [U R]. exists n. now repeat split.
    + rewrite (ParseInt_range true). split.
      * intros (un & U & -> & R). rewrite U. now split.
      * intros [U R]. destruct (unsigned_value s) as [un|]; [|discriminate].
        injection U as <-. exists un. now repeat split.
    + rewrite (ParseInt_range false). split.
      * intros (un & U & -> & R). now split.
      * intros [U R]. exists n. now repeat split.
Qed.

Theorem Atoi_Ok (s : string) (n : Z) :
  Atoi s = Ok n <-> decimal_value s = Some n /\ minInt <= n <= maxInt.
Proof.
  unfold Atoi. rewrite <- ParseInt_Ok.
  destruct (ParseInt s) as [i64|e] eqn:P.
  - apply ParseInt_Ok in P. destruct P as [_ R].
    rewrite to_int_small by assumption. reflexivity.
  - split; [|discriminate]. destruct e; discriminate.
Qed.

Lemma Atoi_Err (s : string) : is_Err (Atoi s) <-> ~ is_integer s.
Proof.
  split.
  - intros E (n & H). apply Atoi_Ok in H. rewrite H in E. exact E.
  - intros N. destruct (Atoi s) as [n|e] eqn:E; [|exact I].
    exfalso. apply N. exists n. now apply Atoi_Ok.
Qed.

(** The error of [Atoi] names the function and the text it was given. *)
Lemma Atoi_error (s : string) (e : error) :
  Atoi s = Err e ->
  e = NumError "Atoi" s ErrSyntax \/ e = NumError "Atoi" s ErrRange.
Proof.
  unfold Atoi, ParseInt. destruct (String.eqb s "").
  { intros [= <-]. now left. }
  destruct (match s with
            | String c s' => if Ascii.eqb c "+" then (false, s')
                             else if Ascii.eqb c "-" then (true, s') else (false, s)
            | EmptyString => (false, s) end) as [neg t].
  destruct (ParseUint t) as [un|e'].
  - cbv zeta.
    destruct (negb neg && (un >=? 2 ^ (intSize - 1))); [intros [= <-]; now right|].
    destruct (neg && (un >? 2 ^ (intSize - 1))); [intros [= <-]; now right|].
    discriminate.
  - destruct e' as [| ? ? []| | | |]; intros [= <-]; tauto.
Qed.

End AtoiFacts.

(** * The resolver *)

Section ResolverFacts.

Lemma digits_value_digits (s : string) (acc m : Z) (c : ascii) :
  digits_value s acc = Some m -> occurs c s -> is_digit c = true.
Proof.
  revert acc; induction s as [|a s IH]; simpl; intros acc E O; [contradiction|].
  destruct (is_digit a) eqn:D; [|discriminate].
  destruct O as [<-|O]; [assumption | eauto].
Qed.

Lemma decimal_value_bytes (s : string) (n : Z) (c : ascii) :
  decimal_value s = Some n -> occurs c s ->
  is_digit c = true \/ c = "+"%char \/ c = "-"%char.
Proof.
  unfold decimal_value, unsigned_value. destruct s as [|a s]; [discriminate|].
  assert (U : forall t m, match t with EmptyString => None | _ => digits_value t 0 end
                          = Some m -> occurs c t -> is_digit c = true).
  { intros [|b t] m; [discriminate | apply digits_value_digits]. }
  destruct (Ascii.eqb_spec a "+") as [->|Np]; [|destruct (Ascii.eqb_spec a "-") as [->|Nm]].
  - intros E [<-|O]; [tauto | left; eauto].
  - intros E [<-|O]; [tauto | left].
    destruct (match s with EmptyString => None | _ => digits_value s 0 end) eqn:V;
      [eauto | discriminate].
  - intros E O. left. exact (U (String a s) n E O).
Qed.

Lemma integer_text_no_separator (p : string) (n : Z) :
  decimal_value p = Some n ->
  ~ occurs ":" p /\ ~ occurs "[" p /\ ~ occurs "]" p.
Proof.
  intros E. repeat split; intros O;
    destruct (decimal_value_bytes _ _ _ E O) as [D|[D|D]]; discriminate.
Qed.

Lemma int_add_1 (n : Z) :
  minInt <= n <= maxInt ->
  int_add n 1 = if Z.eq_dec n maxInt then minInt else n + 1.
Proof.
  unfold int_add, to_int, minInt, maxInt, intSize.
  change (2 ^ (64 - 1)) with 9223372036854775808.
  change (2 ^ 63) with 9223372036854775808.
  change (2 ^ 64) with 18446744073709551616.
  intros R. destruct (Z.eq_dec n (9223372036854775808 - 1)) as [->|D]; [reflexivity|].
  rewrite Z.mod_small; lia.
Qed.

(** What [Address] returns on an input that splits into [host] and [port]. *)
Lemma Address_split (cl : rpcResolver) (s host port : string) :
  hostport_form s host port ->
  Address cl s =
    if isLocalCluster cl then
      match Atoi port with
      | Ok iPort => Ok (host +:+ ":" +:+ FormatInt (int_add iPort 1))
      | Err err => Err err
      end
    else Ok (host +:+ ":" +:+ FormatInt (rpcPort cl)).
Proof.
  intros F. apply SplitHostPort_complete in F.
  unfold Address, rpcResolver_resolver, rpcResolver_Address. rewrite F.
  destruct (isLocalCluster cl); reflexivity.
Qed.

Lemma Address_offset_int (servicePort : Z) (s host port : string) (n : Z) :
  hostport_form s host port ->
  decimal_value port = Some n -> minInt <= n <= maxInt ->
  Address (NewRPCResolver true servicePort) s
    = Ok (host +:+ ":" +:+ FormatInt (int_add n 1)).
Proof.
  intros F V R. rewrite (Address_split _ _ _ _ F). simpl isLocalCluster. cbv iota.
  assert (Atoi port = Ok n) as -> by now apply Atoi_Ok.
  reflexivity.
Qed.

Example fixed_port_example :
  Address (NewRPCResolver false 8300) "10.0.0.5:7000" = Ok "10.0.0.5:8300".
Proof. reflexivity. Qed.

Example offset_example :
  Address (NewRPCResolver true 8300) "10.0.0.5:7000" = Ok "10.0.0.5:7001".
Proof. vm_compute. reflexivity. Qed.

Example malformed_example (mode : bool) :
  Address (NewRPCResolver mode 8300) "not-an-address"
    = Err (AddrError "missing port in address" "not-an-address").
Proof. destruct mode; reflexivity. Qed.

Example named_port_example :
  Address (NewRPCResolver true 8300) "10.0.0.5:raft"
    = Err (NumError "Atoi" "raft" ErrSyntax) /\
  Address (NewRPCResolver false 8300) "10.0.0.5:raft" = Ok "10.0.0.5:8300".
Proof. split; vm_compute; reflexivity. Qed.

(** C6, as stated, fails where the port is the largest [int]: the sum
    wraps around to the smallest one. *)
Lemma resolver_as_specified_counterexample :
  hostport_form "10.0.0.5:9223372036854775807" "10.0.0.5" "9223372036854775807" /\
  decimal_value "9223372036854775807" = Some maxInt /\
  Address (NewRPCResolver true 8300) "10.0.0.5:9223372036854775807"
    = Ok "10.0.0.5:-9223372036854775808" /\
  FormatInt (maxInt + 1) = "9223372036854775808" /\
  ~ resolver_as_specified 8300.
Proof.
  assert (F : hostport_form "10.0.0.5:9223372036854775807" "10.0.0.5"
                "9223372036854775807")
    by (apply SplitHostPort_sound; reflexivity).
  split; [exact F|].
  split; [vm_compute; reflexivity|].
  split; [vm_compute; reflexivity|].
  split; [vm_compute; reflexivity|].
  intros H. destruct (H _ _ _ F) as [_ H'].
  assert (V : decimal_value "9223372036854775807" = Some maxInt)
    by (vm_compute; reflexivity).
  assert (B : minInt <= maxInt <= maxInt) by (vm_compute; split; discriminate).
  specialize (H' maxInt V B).
  vm_compute in H'. discriminate H'.
Qed.

(** C6 (amended): on every well-formed input, the fixed-port mode returns
    the host followed by the configured service port; the offset mode, when
    the port is an integer of type [int], returns the host followed by that
    integer plus one computed in [int]: the plain sum below the largest
    [int], the smallest [int] at it. *)
Theorem resolver_modes (servicePort : Z) (s host port : string) :
  hostport_form s host port ->
  Address (NewRPCResolver false servicePort) s
    = Ok (host +:+ ":" +:+ FormatInt servicePort) /\
  forall n, decimal_value port = Some n -> minInt <= n <= maxInt ->
    Address (NewRPCResolver true servicePort) s
      = Ok (host +:+ ":" +:+ FormatInt (int_add n 1)) /\
    int_add n 1 = if Z.eq_dec n maxInt then minInt else n + 1.
Proof.
  intros F. split.
  - now rewrite (Address_split _ _ _ _ F).
  - intros n V R. split; [now apply (Address_offset_int _ s host port) | now apply int_add_1].
Qed.

Lemma resolver_modes_witness :
  Address (NewRPCResolver false 8300) "10.0.0.5:7000" = Ok "10.0.0.5:8300" /\
  Address (NewRPCResolver true 8300) "10.0.0.5:7000" = Ok "10.0.0.5:7001".
Proof.
  assert (F : hostport_form "10.0.0.5:7000" "10.0.0.5" "7000")
    by (apply SplitHostPort_sound; reflexivity).
  destruct (resolver_modes 8300 _ _ _ F) as [H1 H2].
  split; [exact H1|].
  assert (V : decimal_value "7000" = Some 7000) by (vm_compute; reflexivity).
  destruct (H2 7000 V) as [H3 _]; [vm_compute; split; discriminate|].
  exact H3.
Defined.

(** C7 (amended): the resolver returns an error exactly when the input
    is not a well-formed host:port pair or, in the offset mode only, when the
    port is not an integer of type [int]: not the text of a decimal integer,
    or one below the smallest or above the largest [int].  In the fixed-port
    mode every well-formed pair resolves, whatever its port. *)
Theorem Address_error_iff (cl : rpcResolver) (s : string) :
  (is_Err (Address cl s) <->
     ~ well_formed_hostport s \/
     (isLocalCluster cl = true /\
      exists host port, hostport_form s host port /\ ~ is_integer port)) /\
  (isLocalCluster cl = false ->
     (is_Err (Address cl s) <-> ~ well_formed_hostport s) /\
     forall host port, hostport_form s host port ->
       Address cl s = Ok (host +:+ ":" +:+ FormatInt (rpcPort cl))).
Proof.
  assert (M : is_Err (Address cl s) <->
     ~ well_formed_hostport s \/
     (isLocalCluster cl = true /\
      exists host port, hostport_form s host port /\ ~ is_integer port)).
  { split.
    - intros E. destruct (SplitHostPort s) as [[host port]|e] eqn:S.
      + apply SplitHostPort_sound in S. right.
        rewrite (Address_split _ _ _ _ S) in E.
        destruct (isLocalCluster cl); [|contradiction].
        split; [reflexivity|]. exists host, port. split; [assumption|].
        apply Atoi_Err. now destruct (Atoi port).
      + left. apply SplitHostPort_Err. now rewrite S.
    - intros [N|(L & host & port & F & N)].
      + apply SplitHostPort_Err in N.
        unfold Address, rpcResolver_resolver, rpcResolver_Address.
        now destruct (SplitHostPort s) as [[? ?]|].
      + rewrite (Address_split _ _ _ _ F), L. apply Atoi_Err in N.
        now destruct (Atoi port). }
  split; [exact M|]. intros L. split.
  - rewrite M, L. split; [intros [N|[[=] _]]; exact N | now left].
  - intros host port F. now rewrite (Address_split _ _ _ _ F), L.
Qed.

(** C10, as stated, fails at the largest [int]: the text parses, and the
    port returned is the smallest [int], not the next integer. *)
Lemma offset_adds_one_counterexample :
  Atoi "9223372036854775807" = Ok 9223372036854775807 /\
  Address (NewRPCResolver true 8300) "h:9223372036854775807"
    = Ok "h:-9223372036854775808" /\
  ~ offset_adds_one 8300 "h" "9223372036854775807" 9223372036854775807.
Proof.
  split; [vm_compute; reflexivity|].
  split; [vm_compute; reflexivity|].
  unfold offset_adds_one. vm_compute. discriminate.
Qed.

(** C10 (amended): the offset mode checks no port range.  For every host
    free of colons and square brackets and every port text that denotes an
    integer [n] of type [int], negative or above 65535 alike, resolving
    [host:port] succeeds and returns the host followed by [n + 1] computed
    in [int]: [n + 1] itself unless [n] is the largest [int], where it
    is the smallest. *)
Theorem offset_mode_no_range_check (servicePort : Z) (h p : string) (n : Z) :
  ~ occurs ":" h -> ~ occurs "[" h -> ~ occurs "]" h ->
  decimal_value p = Some n -> minInt <= n <= maxInt ->
  Address (NewRPCResolver true servicePort) (h +:+ ":" +:+ p)
    = Ok (h +:+ ":" +:+ FormatInt (int_add n 1)) /\
  (n <> maxInt -> offset_adds_one servicePort h p n) /\
  (n = maxInt -> int_add n 1 = minInt).
Proof.
  intros Hc Hl Hr V R.
  destruct (integer_text_no_separator _ _ V) as (Pc & Pl & Pr).
  assert (F : hostport_form (h +:+ ":" +:+ p) h p) by now apply plain_form.
  pose proof (Address_offset_int servicePort _ _ _ _ F V R) as A.
  pose proof (int_add_1 n R) as E. split; [exact A|]. split.
  - intros D. unfold offset_adds_one. rewrite A, E.
    destruct (Z.eq_dec n maxInt); [contradiction | reflexivity].
  - intros ->. rewrite E. now destruct (Z.eq_dec maxInt maxInt).
Qed.

Lemma offset_mode_no_range_check_witness :
  Address (NewRPCResolver true 8300) "h:-2" = Ok "h:-1" /\
  Address (NewRPCResolver true 8300) "h:65535" = Ok "h:65536".
Proof.
  assert (N : forall c : ascii, c <> "h"%char -> ~ occurs c "h")
    by (intros c D [E|[]]; congruence).
  split.
  - refine (proj1 (offset_mode_no_range_check 8300 "h" "-2" (-2) _ _ _ _ _)).
    + apply N; discriminate.
    + apply N; discriminate.
    + apply N; discriminate.
    + vm_compute; reflexivity.
    + vm_compute; split; discriminate.
  - refine (proj1 (offset_mode_no_range_check 8300 "h" "65535" 65535 _ _ _ _ _)).
    + apply N; discriminate.
    + apply N; discriminate.
    + apply N; discriminate.
    + vm_compute; reflexivity.
    + vm_compute; split; discriminate.
Defined.

End ResolverFacts.

(** * The leader-connection cache *)

Section ClientFacts.
Context {R : Type} `{!rpcAddressResolver R} `{!Network}.

Implicit Types (cl : Client R) (w : world) (conn : handle).

(** The two ways through [getConn]. *)
Lemma getConn_hit a cl w conn :
  leaderConn cl = Some conn -> a = leaderAddr cl ->
  getConn a cl w = (Ok conn, cl, w).
Proof. intros E ->. unfold getConn. now rewrite E, String.eqb_refl. Qed.

Lemma getConn_miss a cl w :
  leaderConn cl = None \/ a <> leaderAddr cl ->
  getConn a cl w =
    match Address (rpc cl) a with
    | Err err => (Err (Errorf_w "resolve address: " err), cl, miss_world a cl w)
    | Ok addr =>
        match grpc_Dial addr true (miss_world a cl w) with
        | (Err err, w') =>
            (Err (Errorf_w "dial: " err),
             {| rpc := rpc cl; leaderAddr := leaderAddr cl; leaderConn := None |}, w')
        | (Ok conn, w') =>
            (Ok conn,
             {| rpc := rpc cl; leaderAddr := a; leaderConn := Some conn |}, w')
        end
    end.
Proof.
  intros M. unfold getConn, miss_world.
  destruct (leaderConn cl) as [conn|] eqn:E.
  - destruct (String.eqb_spec a (leaderAddr cl)) as [->|N]; [|reflexivity].
    destruct M; [discriminate | contradiction].
  - reflexivity.
Qed.

Lemma hit_or_miss a cl :
  (exists conn, leaderConn cl = Some conn /\ a = leaderAddr cl) \/
  (leaderConn cl = None \/ a <> leaderAddr cl).
Proof.
  destruct (leaderConn cl) as [conn|]; [|right; now left].
  destruct (String.eqb_spec a (leaderAddr cl)); [left; eauto | right; now right].
Qed.

(** A successful [getConn] leaves the cache bound to the address asked
    for, with the handle it returns. *)
Lemma getConn_Ok a cl w conn cl' w' :
  getConn a cl w = (Ok conn, cl', w') ->
  rpc cl' = rpc cl /\ leaderConn cl' = Some conn /\ leaderAddr cl' = a.
Proof.
  destruct (hit_or_miss a cl) as [(c & E & ->)|M].
  - rewrite (getConn_hit _ _ _ _ E eq_refl). intros [= <- <- <-]. auto.
  - rewrite (getConn_miss _ _ _ M).
    destruct (Address (rpc cl) a) as [addr|e]; [|discriminate].
    destruct (grpc_Dial addr true _) as [[c|e] w1]; [|discriminate].
    intros [= <- <- <-]. auto.
Qed.

(** ** The connection table under the primitive steps *)

Lemma conn_Close_lookup conn w :
  conns (conn_Close conn w) !! conn = closeConn <$> conns w !! conn.
Proof. unfold conn_Close; simpl. apply list_lookup_alter_eq. Qed.

Lemma conn_Close_lookup_ne conn conn' w :
  conn <> conn' -> conns (conn_Close conn w) !! conn' = conns w !! conn'.
Proof. intros N. unfold conn_Close; simpl. now apply list_lookup_alter_ne. Qed.

Lemma conn_Close_target conn conn' w c :
  conns w !! conn' = Some c ->
  exists c', conns (conn_Close conn w) !! conn' = Some c' /\ target c' = target c.
Proof.
  intros E. destruct (Nat.eq_dec conn conn') as [->|N].
  - rewrite conn_Close_lookup, E. simpl. eauto.
  - rewrite conn_Close_lookup_ne by assumption. eauto.
Qed.

Lemma conn_Close_length conn w :
  length (conns (conn_Close conn w)) = length (conns w).
Proof. unfold conn_Close; simpl. apply length_alter. Qed.

Lemma miss_world_target a cl w conn c :
  conns w !! conn = Some c ->
  exists c', conns (miss_world a cl w) !! conn = Some c' /\ target c' = target c.
Proof.
  intros E. unfold miss_world, log; simpl.
  destruct (leaderConn cl); [now apply conn_Close_target | eauto].
Qed.

Lemma miss_world_length a cl w :
  length (conns (miss_world a cl w)) = length (conns w).
Proof.
  unfold miss_world, log; simpl.
  destruct (leaderConn cl); [apply conn_Close_length | reflexivity].
Qed.

(** ** The table only grows, and a connection keeps its target *)

Lemma extends_refl w : extends w w.
Proof. intros conn c E. eauto. Qed.

Lemma extends_trans w1 w2 w3 : extends w1 w2 -> extends w2 w3 -> extends w1 w3.
Proof.
  intros H12 H23 conn c E. destruct (H12 _ _ E) as (c2 & E2 & T2).
  destruct (H23 _ _ E2) as (c3 & E3 & T3). exists c3. split; congruence.
Qed.

Lemma extends_log e w : extends w (log e w).
Proof. intros conn c E. simpl. eauto. Qed.

Lemma extends_conn_Close conn w : extends w (conn_Close conn w).
Proof. intros conn' c E. now apply conn_Close_target. Qed.

Lemma extends_miss_world a cl w : extends w (miss_world a cl w).
Proof. intros conn c E. now apply miss_world_target. Qed.

Lemma grpc_Dial_Ok addr sc w conn w' :
  grpc_Dial addr sc w = (Ok conn, w') ->
  dial_error w addr = None /\ conn = length (conns w) /\
  conns w' = (conns w ++ [{| target := addr; serviceConfig := sc; closeCalls := O |}])%list /\
  trace w' = (trace w ++ [EvDial addr (Some conn)])%list.
Proof.
  unfold grpc_Dial. destruct (dial_error w addr); [discriminate|].
  intros [= <- <-]. simpl. auto.
Qed.

Lemma grpc_Dial_Err addr sc w err w' :
  grpc_Dial addr sc w = (Err err, w') ->
  dial_error w addr = Some err /\ w' = log (EvDial addr None) w.
Proof.
  unfold grpc_Dial. destruct (dial_error w addr); [|discriminate].
  intros [= <- <-]. auto.
Qed.

Lemma extends_grpc_Dial addr sc w r w' :
  grpc_Dial addr sc w = (r, w') -> extends w w'.
Proof.
  destruct r as [conn|err]; intros D.
  - apply grpc_Dial_Ok in D. destruct D as (_ & _ & C & _).
    intros conn' c E. rewrite C. exists c. split; [|reflexivity].
    rewrite lookup_app_l; [assumption | now apply lookup_lt_Some in E].
  - apply grpc_Dial_Err in D. destruct D as (_ & ->). apply extends_log.
Qed.

Lemma grpc_Dial_new addr sc w conn w' :
  grpc_Dial addr sc w = (Ok conn, w') ->
  conns w !! conn = None /\
  conns w' !! conn = Some {| target := addr; serviceConfig := sc; closeCalls := O |}.
Proof.
  intros D. apply grpc_Dial_Ok in D. destruct D as (_ & -> & C & _). split.
  - now apply lookup_ge_None.
  - rewrite C. apply list_lookup_middle. reflexivity.
Qed.

Lemma getConn_extends a cl w r cl' w' :
  getConn a cl w = (r, cl', w') -> extends w w'.
Proof.
  destruct (hit_or_miss a cl) as [(c & E & ->)|M].
  - rewrite (getConn_hit _ _ _ _ E eq_refl). intros [= <- <- <-]. apply extends_refl.
  - rewrite (getConn_miss _ _ _ M).
    destruct (Address (rpc cl) a) as [addr|e].
    + destruct (grpc_Dial addr true _) as [[c|e] w1] eqn:D; intros [= <- <- <-];
        (eapply extends_trans; [apply extends_miss_world | eapply extends_grpc_Dial, D]).
    + intros [= <- <- <-]. apply extends_miss_world.
Qed.

Lemma cache_ok_extends cl w w' : cache_ok cl w -> extends w w' -> cache_ok cl w'.
Proof.
  intros Hok Hext conn E. destruct (Hok conn E) as (c & Ec & A).
  destruct (Hext _ _ Ec) as (c' & Ec' & T). exists c'.
  split; [exact Ec' | now rewrite T].
Qed.

Lemma getConn_cache_ok a cl w r cl' w' :
  cache_ok cl w -> getConn a cl w = (r, cl', w') ->
  rpc cl' = rpc cl /\ cache_ok cl' w'.
Proof.
  intros Hok G. pose proof (getConn_extends _ _ _ _ _ _ G) as Hext.
  destruct (hit_or_miss a cl) as [(c & E & ->)|M].
  - rewrite (getConn_hit _ _ _ _ E eq_refl) in G. injection G as <- <- <-. auto.
  - rewrite (getConn_miss _ _ _ M) in G.
    destruct (Address (rpc cl) a) as [addr|e] eqn:A.
    + destruct (grpc_Dial addr true _) as [[c|e] w1] eqn:D; injection G as <- <- <-.
      * split; [reflexivity|]. intros conn [= <-]. simpl.
        destruct (grpc_Dial_new _ _ _ _ _ D) as [_ N]. eexists. split; [exact N|].
        exact A.
      * split; [reflexivity|]. intros conn [=].
    + injection G as <- <- <-. split; [reflexivity|].
      now apply cache_ok_extends with w.
Qed.

Lemma Close_cache_ok cl w cl' w' :
  cache_ok cl w -> Close cl w = (cl', w') -> cl' = cl /\ cache_ok cl' w'.
Proof.
  unfold Close. intros Hok. destruct (leaderConn cl) as [conn|]; intros [= <- <-].
  - split; [reflexivity|].
    eapply cache_ok_extends; [exact Hok | apply extends_conn_Close].
  - auto.
Qed.

Lemma callLeader_cache_ok m ctx a req cl w r cl' w' :
  cache_ok cl w -> callLeader m ctx a req cl w = (r, cl', w') ->
  rpc cl' = rpc cl /\ cache_ok cl' w'.
Proof.
  unfold callLeader. intros Hok.
  destruct (getConn a cl w) as [[[conn|e] cl1] w1] eqn:G;
    destruct (getConn_cache_ok _ _ _ _ _ _ Hok G) as [Er Hok1];
    intros [= <- <- <-]; (split; [assumption|]); [|assumption].
  eapply cache_ok_extends; [exact Hok1 | apply extends_log].
Qed.

Lemma Notify_frame ctx rAddr req cl w r cl' w' :
  Notify ctx rAddr req cl w = (r, cl', w') -> cl' = cl /\ extends w w'.
Proof.
  unfold Notify. destruct (Address (rpc cl) rAddr) as [addr|e].
  - destruct (grpc_Dial addr false _) as [[conn|e] w1] eqn:D; intros [= <- <- <-];
      split; try reflexivity.
    + eapply extends_trans; [apply extends_log|].
      eapply extends_trans; [eapply extends_grpc_Dial, D|].
      eapply extends_trans; [apply extends_log | apply extends_conn_Close].
    + eapply extends_trans; [apply extends_log | eapply extends_grpc_Dial, D].
  - intros [= <- <- <-]. split; [reflexivity | apply extends_log].
Qed.

Lemma step_cache_ok o cl w r cl' w' :
  cache_ok cl w -> step o cl w = (r, cl', w') ->
  rpc cl' = rpc cl /\ cache_ok cl' w'.
Proof.
  intros Hok. destruct o as [ctx a req|ctx a req|ctx a req|a req|ctx a req|]; simpl.
  - destruct (Join ctx a req cl w) as [[r1 cl1] w1] eqn:E. intros [= <- <- <-].
    eapply callLeader_cache_ok; eassumption.
  - destruct (Notify ctx a req cl w) as [[r1 cl1] w1] eqn:E. intros [= <- <- <-].
    destruct (Notify_frame _ _ _ _ _ _ _ _ E) as [-> X]. split; [reflexivity|].
    now apply cache_ok_extends with w.
  - destruct (Remove ctx a req cl w) as [[r1 cl1] w1] eqn:E. intros [= <- <- <-].
    eapply callLeader_cache_ok; eassumption.
  - destruct (Apply a req cl w) as [[r1 cl1] w1] eqn:E. intros [= <- <- <-].
    eapply callLeader_cache_ok; eassumption.
  - destruct (Query ctx a req cl w) as [[r1 cl1] w1] eqn:E. intros [= <- <- <-].
    eapply callLeader_cache_ok; eassumption.
  - destruct (Close cl w) as [cl1 w1] eqn:E. intros [= <- <- <-].
    destruct (Close_cache_ok _ _ _ _ Hok E) as [-> X]. auto.
Qed.

Lemma run_cache_ok os cl w cl' w' :
  cache_ok cl w -> run os cl w = (cl', w') ->
  rpc cl' = rpc cl /\ cache_ok cl' w'.
Proof.
  revert cl w; induction os as [|o os IH]; simpl; intros cl w Hok.
  - intros [= <- <-]. auto.
  - destruct (step o cl w) as [[r cl1] w1] eqn:S.
    destruct (step_cache_ok _ _ _ _ _ _ Hok S) as [E1 Hok1].
    intros Rn. destruct (IH _ _ Hok1 Rn) as [E2 Hok2].
    split; [now rewrite E2 | exact Hok2].
Qed.

Lemma NewClient_cache_ok (r : R) w : cache_ok (NewClient r) w.
Proof. intros conn [=]. Qed.

(** ** Counting events *)

Lemma count_app p (tr tr' : list event) :
  count p (tr ++ tr')%list = (count p tr + count p tr')%nat.
Proof.
  induction tr as [|e tr IH]; simpl; [reflexivity|].
  destruct (p e); simpl; now rewrite IH.
Qed.

Lemma dials_miss_world a cl w : dials (miss_world a cl w) = dials w.
Proof.
  unfold dials, miss_world, log, conn_Close; simpl.
  destruct (leaderConn cl); simpl; rewrite !count_app; simpl; lia.
Qed.

Lemma dials_grpc_Dial_Ok addr sc w conn w' :
  grpc_Dial addr sc w = (Ok conn, w') -> dials w' = S (dials w).
Proof.
  intros D. apply grpc_Dial_Ok in D. destruct D as (_ & _ & _ & T).
  unfold dials. rewrite T, count_app. simpl. lia.
Qed.

Lemma getConn_repeat_hit n a cl w conn :
  leaderConn cl = Some conn -> a = leaderAddr cl ->
  getConn_repeat n a cl w = (replicate n (Ok conn), cl, w).
Proof.
  intros E A. induction n as [|n IH]; simpl; [reflexivity|].
  now rewrite (getConn_hit _ _ _ _ E A), IH.
Qed.

Lemma getConn_Ok_dials a cl w conn cl' w' :
  getConn a cl w = (Ok conn, cl', w') ->
  (exists c, leaderConn cl = Some c /\ a = leaderAddr cl /\ w' = w) \/
  ((leaderConn cl = None \/ a <> leaderAddr cl) /\ dials w' = S (dials w)).
Proof.
  destruct (hit_or_miss a cl) as [(c & E & ->)|M].
  - rewrite (getConn_hit _ _ _ _ E eq_refl). intros [= <- <- <-]. left. eauto.
  - rewrite (getConn_miss _ _ _ M).
    destruct (Address (rpc cl) a) as [addr|e]; [|discriminate].
    destruct (grpc_Dial addr true _) as [[c|e] w1] eqn:D; [|discriminate].
    intros [= <- <- <-]. right. split; [assumption|].
    rewrite (dials_grpc_Dial_Ok _ _ _ _ _ D). now rewrite dials_miss_world.
Qed.

End ClientFacts.

(** * The claims about the cache *)

Section CacheClaims.
Context {R : Type} `{!rpcAddressResolver R} `{!Network}.

Implicit Types (cl : Client R) (w : world) (conn : handle).

(** C4: after a successful [getConn addr], every further [getConn addr]
    returns the same handle and leaves the client and the world as they
    were: no resolution, no dial.  Starting from an empty cache that is one
    dial in all. *)
Theorem getConn_repeat_same a cl w conn cl1 w1 n :
  getConn a cl w = (Ok conn, cl1, w1) ->
  getConn_repeat n a cl1 w1 = (replicate n (Ok conn), cl1, w1) /\
  (leaderConn cl = None -> dials w1 = S (dials w)) /\
  (dials w1 <= S (dials w))%nat.
Proof.
  intros G. destruct (getConn_Ok _ _ _ _ _ _ G) as (_ & E & A).
  split; [apply getConn_repeat_hit; [exact E | now rewrite A]|].
  destruct (getConn_Ok_dials _ _ _ _ _ _ G) as [(c & Ec & _ & ->)|[_ D]].
  - split; [intros N; rewrite N in Ec; discriminate | lia].
  - split; [intros _; exact D | lia].
Qed.



(** C9: when the cache is bound to [a] with an open connection and
    [getConn b], for another address, fails to resolve [b], the old
    connection has been closed and is still the cached one, bound to [a]:
    the next [getConn a] returns that closed handle, with no error, no
    resolution and no dial. *)
Theorem getConn_resolve_failure_keeps_closed a b cl w connA cA err :
  leaderConn cl = Some connA ->
  leaderAddr cl = a ->
  conns w !! connA = Some cA ->
  is_open cA ->
  b <> a ->
  Address (rpc cl) b = Err err ->
  let w1 := miss_world b cl w in
  getConn b cl w = (Err (Errorf_w "resolve address: " err), cl, w1) /\
  trace w1 = (trace w ++ [EvClose connA; EvResolve b])%list /\
  conns w1 !! connA = Some (closeConn cA) /\
  is_closed (closeConn cA) /\
  getConn a cl w1 = (Ok connA, cl, w1).
Proof.
  intros E La EcA Op N A w1.
  assert (M : leaderConn cl = None \/ b <> leaderAddr cl) by (right; now rewrite La).
  split; [rewrite (getConn_miss b cl w M), A; reflexivity|].
  subst w1. unfold miss_world. rewrite E. simpl.
  split; [now rewrite <- app_assoc|].
  split; [now rewrite list_lookup_alter_eq, EcA|].
  split; [unfold is_closed; simpl; lia|].
  apply getConn_hit; [exact E | now rewrite La].
Qed.

(** [getConn] follows [leader_phase]. *)
Lemma getConn_leader_phase a cl w :
  match leader_phase a cl w with
  | ResolveFailed err =>
      exists cl' w', getConn a cl w = (Err (Errorf_w "resolve address: " err), cl', w')
  | DialFailed err =>
      exists cl' w', getConn a cl w = (Err (Errorf_w "dial: " err), cl', w')
  | Connected conn w1 => exists cl', getConn a cl w = (Ok conn, cl', w1)
  end.
Proof.
  destruct (hit_or_miss a cl) as [(c & E & ->)|M].
  - unfold leader_phase. rewrite E, String.eqb_refl.
    exists cl. now apply getConn_hit.
  - assert (leader_phase a cl w = establish a true cl (miss_world a cl w)) as ->.
    { unfold leader_phase. destruct (leaderConn cl) as [c|]; [|reflexivity].
      destruct (String.eqb_spec a (leaderAddr cl)); [|reflexivity].
      destruct M; [discriminate | contradiction]. }
    rewrite (getConn_miss _ _ _ M). unfold establish, grpc_Dial.
    destruct (Address (rpc cl) a) as [addr|e]; [|eauto].
    destruct (dial_error (miss_world a cl w) addr); eauto.
Qed.

Lemma callLeader_reply m ctx a req cl w :
  (callLeader m ctx a req cl w).1.1 = reply_as_specified (leader_phase a cl w) m ctx req.
Proof.
  unfold callLeader. pose proof (getConn_leader_phase a cl w) as P.
  destruct (leader_phase a cl w) as [e|e|conn w1].
  - destruct P as (cl' & w' & ->). reflexivity.
  - destruct P as (cl' & w' & ->). reflexivity.
  - destruct P as (cl' & ->). reflexivity.
Qed.

Lemma Notify_reply ctx a req cl w :
  (Notify ctx a req cl w).1.1
    = reply_as_specified (establish a false cl (log (EvResolve a) w))
        cmd.NotifyPeer ctx req.
Proof.
  unfold Notify, establish, grpc_Dial.
  destruct (Address (rpc cl) a) as [addr|e]; [|reflexivity].
  destruct (dial_error (log (EvResolve a) w) addr); reflexivity.
Qed.

(** C5: an operation that cannot come by a connection returns no response
    and the error of the failing phase wrapped, "resolve address: " before
    the resolver's error and "dial: " before the dialler's; otherwise it
    returns what the remote call returned, response and error as they
    are. *)
Theorem step_reply o cl w ph m ctx req :
  op_phase o cl w = Some (ph, m, ctx, req) ->
  (step o cl w).1.1 = Some (reply_as_specified ph m ctx req) /\
  forall Quote err,
    Error Quote (Errorf_w "resolve address: " err)
      = "resolve address: " +:+ Error Quote err /\
    Error Quote (Errorf_w "dial: " err) = "dial: " +:+ Error Quote err /\
    Unwrap (Errorf_w "resolve address: " err) = Some err /\
    Unwrap (Errorf_w "dial: " err) = Some err.
Proof.
  intros P. split; [|intros Quote err; repeat split].
  destruct o as [c a q|c a q|c a q|a q|c a q|]; simpl in P; try discriminate;
    injection P as <- <- <- <-; simpl.
  - pose proof (callLeader_reply cmd.JoinPeer c a q cl w) as X. unfold Join.
    destruct (callLeader _ _ _ _ _ _) as [[r cl'] w']. simpl in X. now rewrite X.
  - pose proof (Notify_reply c a q cl w) as X.
    destruct (Notify _ _ _ _ _) as [[r cl'] w']. simpl in X. now rewrite X.
  - pose proof (callLeader_reply cmd.RemovePeer c a q cl w) as X. unfold Remove.
    destruct (callLeader _ _ _ _ _ _) as [[r cl'] w']. simpl in X. now rewrite X.
  - pose proof (callLeader_reply cmd.Apply context_Background a q cl w) as X.
    unfold Apply.
    destruct (callLeader _ _ _ _ _ _) as [[r cl'] w']. simpl in X. now rewrite X.
  - pose proof (callLeader_reply cmd.Query c a q cl w) as X. unfold Query.
    destruct (callLeader _ _ _ _ _ _) as [[r cl'] w']. simpl in X. now rewrite X.
Qed.

(** C8: [Notify] never touches the cache: the client comes back as it
    went in, and the connections already there are as they were.  When the
    address resolves and the dial succeeds, the connection is a new one of
    its own, dialled without the service configuration, and it has been
    closed once when [Notify] returns, whatever the remote call
    returned. *)
Theorem Notify_private_connection ctx rAddr req cl w :
  exists r w',
    Notify ctx rAddr req cl w = (r, cl, w') /\
    (forall conn c, conns w !! conn = Some c -> conns w' !! conn = Some c) /\
    forall addr,
      Address (rpc cl) rAddr = Ok addr ->
      dial_error (log (EvResolve rAddr) w) addr = None ->
      let conn := length (conns w) in
      conns w !! conn = None /\
      (cache_ok cl w -> leaderConn cl <> Some conn) /\
      r = invoke cmd.NotifyPeer ctx conn req
            {| conns := conns w ++
                 [{| target := addr; serviceConfig := false; closeCalls := O |}];
               trace := trace w ++ [EvResolve rAddr; EvDial addr (Some conn)] |} /\
      conns w'
        = (conns w ++ [{| target := addr; serviceConfig := false; closeCalls := 1 |}])%list /\
      trace w'
        = (trace w ++ [EvResolve rAddr; EvDial addr (Some conn);
                       EvCall cmd.NotifyPeer conn; EvClose conn])%list.
Proof.
  unfold Notify, grpc_Dial.
  destruct (Address (rpc cl) rAddr) as [addr|e] eqn:A.
  - destruct (dial_error (log (EvResolve rAddr) w) addr) as [e|] eqn:D.
    + do 2 eexists. split; [reflexivity|]. split; [auto|].
      intros addr' [= <-] D'. rewrite D in D'. discriminate.
    + do 2 eexists. split; [reflexivity|]. split.
      * intros conn c E. simpl.
        pose proof (lookup_lt_Some _ _ _ E) as Lt.
        rewrite list_lookup_alter_ne by lia. now rewrite lookup_app_l.
      * intros addr' [= <-] _. cbv zeta. split; [now apply lookup_ge_None_2|].
        split.
        { intros Hok E. destruct (Hok _ E) as (c & Ec & _).
          apply lookup_lt_Some in Ec. lia. }
        split; [simpl; now rewrite <- app_assoc|]. simpl. split.
        -- replace (length (conns w)) with (length (conns w) + 0)%nat at 1 by lia.
           rewrite alter_app_r. reflexivity.
        -- now rewrite <- !app_assoc.
  - do 2 eexists. split; [reflexivity|]. split; [auto|]. intros addr [=].
Qed.

(** C2 (amended): from a new client, after any sequence of operations, a
    cached connection is one that was dialled at the RPC address of the
    address held in [leaderAddr], and that address is present (the
    resolver taking no empty address).  The converse is not kept: after a
    failed dial the address stays while the connection is gone. *)
Theorem cache_invariant_kept (r : R) os cl w :
  (forall addr, Address r "" <> Ok addr) ->
  run os (NewClient r) emptyWorld = (cl, w) ->
  forall conn, leaderConn cl = Some conn ->
    boundAddress cl = Some (leaderAddr cl) /\
    dialled_for cl w conn (leaderAddr cl).
Proof.
  intros Hr Rn conn E.
  destruct (run_cache_ok _ _ _ _ _ (NewClient_cache_ok r emptyWorld) Rn) as [Er Hok].
  pose proof (Hok _ E) as Dl. split; [|exact Dl].
  destruct Dl as (c & _ & A). unfold boundAddress.
  destruct (String.eqb_spec (leaderAddr cl) "") as [Z|Z]; [|reflexivity].
  exfalso. rewrite Z, Er in A. exact (Hr _ A).
Qed.

(** C1 (amended): [Close] closes the cached connection, if there is one.
    A [getConn] that follows with another address than the cached one, or
    with any address when nothing was cached, and whose address resolves and
    whose dial succeeds, dials once and returns the new handle, not the one
    cached before. *)
Theorem Close_then_getConn cl w cl' w' a addr :
  cache_ok cl w ->
  Close cl w = (cl', w') ->
  leaderConn cl = None \/ a <> leaderAddr cl ->
  Address (rpc cl) a = Ok addr ->
  dial_error (miss_world a cl' w') addr = None ->
  (forall conn c, leaderConn cl = Some conn -> conns w !! conn = Some c ->
     conns w' !! conn = Some (closeConn c) /\ is_closed (closeConn c)) /\
  exists cl'' w'',
    let new := length (conns w) in
    getConn a cl' w' = (Ok new, cl'', w'') /\
    leaderConn cl <> Some new /\
    conns w' !! new = None /\
    conns w'' !! new
      = Some {| target := addr; serviceConfig := true; closeCalls := O |} /\
    leaderConn cl'' = Some new /\ leaderAddr cl'' = a /\
    dials w'' = S (dials w').
Proof.
  intros Hok C M A D.
  destruct (Close_cache_ok _ _ _ _ Hok C) as [-> Hok'].
  assert (Lw : length (conns w') = length (conns w)).
  { unfold Close in C. destruct (leaderConn cl); injection C as <-;
      [apply conn_Close_length | reflexivity]. }
  split.
  - intros conn c E Ec. unfold Close in C. rewrite E in C. injection C as <-.
    rewrite conn_Close_lookup, Ec. split; [reflexivity | unfold is_closed; simpl; lia].
  - pose proof (getConn_miss a cl w' M) as G. rewrite A in G.
    destruct (grpc_Dial addr true (miss_world a cl w')) as [[c|e] w''] eqn:Dl.
    + pose proof (grpc_Dial_Ok _ _ _ _ _ Dl) as (_ & Ec & _ & _).
      rewrite miss_world_length, Lw in Ec. subst c.
      destruct (grpc_Dial_new _ _ _ _ _ Dl) as [_ Nw].
      do 2 eexists. cbv zeta. split; [exact G|].
      split.
      { intros E. destruct (Hok _ E) as (c & Ec & _).
        apply lookup_lt_Some in Ec. lia. }
      split; [apply lookup_ge_None_2; lia|].
      split; [exact Nw|]. split; [reflexivity|]. split; [reflexivity|].
      rewrite (dials_grpc_Dial_Ok _ _ _ _ _ Dl). now rewrite dials_miss_world.
    + apply grpc_Dial_Err in Dl. destruct Dl as [Dl _]. rewrite D in Dl. discriminate.
Qed.

End CacheClaims.

(** * The claims on a running client *)

Section OnReachableNetwork.
#[local] Existing Instance reachableNetwork.

Lemma first_call : getConn "n1:7000" cl_new emptyWorld = (Ok O, cl_n1, w_n1).
Proof. vm_compute. reflexivity. Qed.

Lemma cl_n1_cache_ok : cache_ok cl_n1 w_n1.
Proof.
  intros conn [= <-]. eexists. split; [reflexivity|]. vm_compute. reflexivity.
Qed.

Lemma getConn_repeat_same_witness :
  getConn_repeat 3 "n1:7000" cl_n1 w_n1 = ([Ok O; Ok O; Ok O], cl_n1, w_n1) /\
  dials w_n1 = 1%nat.
Proof.
  destruct (getConn_repeat_same "n1:7000" cl_new emptyWorld O cl_n1 w_n1 3)
    as (A & B & _); [vm_compute; reflexivity|].
  split; [exact A | exact (B eq_refl)].
Defined.


Lemma getConn_resolve_failure_keeps_closed_witness :
  getConn "not-an-address" cl_n1 w_n1
    = (Err (Errorf_w "resolve address: "
              (AddrError "missing port in address" "not-an-address")),
       cl_n1, miss_world "not-an-address" cl_n1 w_n1) /\
  conns (miss_world "not-an-address" cl_n1 w_n1) !! O
    = Some {| target := "n1:8300"; serviceConfig := true; closeCalls := 1 |} /\
  getConn "n1:7000" cl_n1 (miss_world "not-an-address" cl_n1 w_n1)
    = (Ok O, cl_n1, miss_world "not-an-address" cl_n1 w_n1).
Proof.
  destruct (getConn_resolve_failure_keeps_closed "n1:7000" "not-an-address"
              cl_n1 w_n1 O
              {| target := "n1:8300"; serviceConfig := true; closeCalls := O |}
              (AddrError "missing port in address" "not-an-address"))
    as (H1 & _ & H3 & _ & H5);
    [reflexivity | reflexivity | reflexivity | reflexivity | discriminate
    | vm_compute; reflexivity |].
  split; [exact H1|]. split; [exact H3 | exact H5].
Defined.

Lemma step_reply_witness :
  (step (OpApply "n1:7000" "put") cl_new emptyWorld).1.1 = Some (Some "n1:8300", None) /\
  (step (OpJoin tt "not-an-address" "join") cl_new emptyWorld).1.1
    = Some (None,
            Some (Errorf_w "resolve address: "
                    (AddrError "missing port in address" "not-an-address"))).
Proof.
  split.
  - refine (proj1 (step_reply (OpApply "n1:7000" "put") cl_new emptyWorld
                     (Connected O w_n1) cmd.Apply tt "put" _)).
    vm_compute; reflexivity.
  - refine (proj1 (step_reply (OpJoin tt "not-an-address" "join") cl_new emptyWorld
                     (ResolveFailed (AddrError "missing port in address" "not-an-address"))
                     cmd.JoinPeer tt "join" _)).
    vm_compute; reflexivity.
Defined.

(** C1, as stated, fails: after the first call and [Close], the cache
    still holds the address and the closed handle, and the next call with
    that address gets the closed handle back, with no dial. *)
Lemma Close_empties_cache_counterexample :
  getConn "n1:7000" cl_new emptyWorld = (Ok O, cl_n1, w_n1) /\
  Close cl_n1 w_n1 = (cl_n1, conn_Close O w_n1) /\
  leaderConn cl_n1 = Some O /\
  boundAddress cl_n1 = Some "n1:7000" /\
  conns (conn_Close O w_n1) !! O
    = Some {| target := "n1:8300"; serviceConfig := true; closeCalls := 1 |} /\
  getConn "n1:7000" cl_n1 (conn_Close O w_n1) = (Ok O, cl_n1, conn_Close O w_n1) /\
  ~ Close_empties_cache cl_n1 w_n1.
Proof.
  split; [vm_compute; reflexivity|].
  split; [reflexivity|].
  split; [reflexivity|].
  split; [reflexivity|].
  split; [reflexivity|].
  split; [vm_compute; reflexivity|].
  unfold Close_empties_cache. simpl. intros (E & _). discriminate E.
Qed.

Lemma Close_then_getConn_witness :
  exists cl'' w'',
    getConn "n2:7000" cl_n1 (conn_Close O w_n1) = (Ok 1%nat, cl'', w'') /\
    conns w'' !! 1%nat
      = Some {| target := "n2:8300"; serviceConfig := true; closeCalls := O |} /\
    leaderConn cl'' = Some 1%nat /\
    dials w'' = 2%nat.
Proof.
  destruct (Close_then_getConn cl_n1 w_n1 cl_n1 (conn_Close O w_n1)
              "n2:7000" "n2:8300")
    as (_ & cl'' & w'' & H1 & _ & _ & H4 & H5 & _ & H7).
  - exact cl_n1_cache_ok.
  - reflexivity.
  - right. discriminate.
  - vm_compute; reflexivity.
  - vm_compute; reflexivity.
  - exists cl'', w''. repeat split; assumption.
Defined.

End OnReachableNetwork.

Section OnNetworkWithN2Down.
#[local] Existing Instance n2DownNetwork.

(** C2, as stated, fails after a failed dial: the connection is gone and
    the address of the former leader is still there. *)
Lemma cache_invariant_counterexample :
  exists cl w,
    run [OpApply "n1:7000" "put"; OpApply "n2:7000" "put"] cl_new emptyWorld = (cl, w) /\
    leaderConn cl = None /\
    boundAddress cl = Some "n1:7000" /\
    ~ cache_invariant_as_specified cl w.
Proof.
  do 2 eexists. split; [vm_compute; reflexivity|].
  split; [reflexivity|]. split; [reflexivity|].
  intros [[_ I] _]. simpl in I.
  destruct I as [conn E]; [now eexists | discriminate E].
Qed.

Lemma cache_invariant_kept_witness :
  exists cl w,
    run [OpApply "n1:7000" "put"; OpNotify tt "n3:7000" "hello"; OpQuery tt "n1:7000" "get"]
        cl_new emptyWorld = (cl, w) /\
    boundAddress cl = Some "n1:7000" /\
    dialled_for cl w O "n1:7000".
Proof.
  do 2 eexists. split; [vm_compute; reflexivity|].
  refine (cache_invariant_kept lab_resolver
            [OpApply "n1:7000" "put"; OpNotify tt "n3:7000" "hello";
             OpQuery tt "n1:7000" "get"] _ _ _ _ O _).
  - intros addr. vm_compute. discriminate.
  - vm_compute; reflexivity.
  - reflexivity.
Defined.

End OnNetworkWithN2Down.

(** * Decimal texts: [%d] and [Atoi] agree *)

Section FormatFacts.

Lemma digits_value_of_uint_acc (d : Decimal.uint) (acc : positive) :
  digits_value (NilEmpty.string_of_uint d) (Z.pos acc)
    = Some (Z.pos (Pos.of_uint_acc d acc)).
Proof.
  revert acc; induction d as [|d IH|d IH|d IH|d IH|d IH|d IH|d IH|d IH|d IH|d IH];
    intros acc; [reflexivity|..];
    cbn [NilEmpty.string_of_uint digits_value Pos.of_uint_acc];
    (match goal with
     | |- context [is_digit ?c] => change (is_digit c) with true; cbv iota
     end);
    rewrite <- IH; f_equal;
    try (match goal with
         | |- context [digit_val ?c] =>
             let v := eval vm_compute in (digit_val c) in
             change (digit_val c) with v
         end; lia).
Qed.

Lemma digits_value_of_uint (d : Decimal.uint) :
  digits_value (NilEmpty.string_of_uint d) 0 = Some (Z.of_N (Pos.of_uint d)).
Proof.
  induction d as [|d IH|d IH|d IH|d IH|d IH|d IH|d IH|d IH|d IH|d IH];
    [reflexivity | exact IH | ..];
    cbn [NilEmpty.string_of_uint digits_value Pos.of_uint];
    (match goal with
     | |- context [is_digit ?c] => change (is_digit c) with true; cbv iota
     end);
    (match goal with
     | |- context [digit_val ?c] =>
         let v := eval vm_compute in (10 * 0 + digit_val c) in
         change (10 * 0 + digit_val c) with v
     end);
    apply digits_value_of_uint_acc.
Qed.

Lemma string_of_uint_head (d : Decimal.uint) :
  d <> Decimal.Nil ->
  exists c t, NilEmpty.string_of_uint d = String c t /\ is_digit c = true.
Proof.
  destruct d; [congruence | ..]; intros _; simpl; eauto.
Qed.

Lemma unsigned_value_to_uint (p : positive) :
  unsigned_value (NilEmpty.string_of_uint (Pos.to_uint p)) = Some (Z.pos p).
Proof.
  pose proof (digits_value_of_uint (Pos.to_uint p)) as V.
  rewrite DecimalPos.Unsigned.of_to in V.
  destruct (string_of_uint_head _ (DecimalPos.Unsigned.to_uint_nonnil p))
    as (c & t & E & _).
  unfold unsigned_value. rewrite E in *. exact V.
Qed.

Lemma FormatInt_pos (p : positive) :
  FormatInt (Z.pos p) = NilEmpty.string_of_uint (Pos.to_uint p) /\
  FormatInt (Z.neg p) = String "-" (NilEmpty.string_of_uint (Pos.to_uint p)).
Proof.
  unfold FormatInt. simpl. unfold NilZero.string_of_uint.
  pose proof (DecimalPos.Unsigned.to_uint_nonnil p) as N.
  destruct (Pos.to_uint p); [congruence | ..]; auto.
Qed.

(** What [%d] prints, [Atoi] reads back. *)
Lemma decimal_value_FormatInt (n : Z) : decimal_value (FormatInt n) = Some n.
Proof.
  destruct n as [|p|p].
  - reflexivity.
  - destruct (FormatInt_pos p) as [-> _].
    pose proof (unsigned_value_to_uint p) as U.
    destruct (string_of_uint_head _ (DecimalPos.Unsigned.to_uint_nonnil p))
      as (c & t & E & D).
    rewrite E in *. unfold decimal_value.
    assert (Ascii.eqb c "+" = false) as ->
      by (apply Ascii.eqb_neq; intros ->; discriminate).
    assert (Ascii.eqb c "-" = false) as ->
      by (apply Ascii.eqb_neq; intros ->; discriminate).
    exact U.
  - destruct (FormatInt_pos p) as [_ ->]. unfold decimal_value.
    change (Ascii.eqb "-" "+") with false. change (Ascii.eqb "-" "-") with true.
    cbv iota. now rewrite unsigned_value_to_uint.
Qed.

Lemma Atoi_FormatInt (n : Z) : minInt <= n <= maxInt -> Atoi (FormatInt n) = Ok n.
Proof. intros R. apply Atoi_Ok. split; [apply decimal_value_FormatInt | exact R]. Qed.

Lemma to_int_range (z : Z) : minInt <= to_int z <= maxInt.
Proof.
  unfold to_int, minInt, maxInt, intSize.
  change (2 ^ (64 - 1)) with 9223372036854775808.
  change (2 ^ 63) with 9223372036854775808.
  change (2 ^ 64) with 18446744073709551616.
  pose proof (Z.mod_pos_bound (z + 9223372036854775808) 18446744073709551616).
  lia.
Qed.

Lemma to_int_add_1 (z : Z) : int_add (to_int z) 1 = to_int (z + 1).
Proof.
  unfold int_add, to_int.
  change (2 ^ 63) with 9223372036854775808.
  change (2 ^ 64) with 18446744073709551616.
  f_equal.
  replace ((z + 9223372036854775808) mod 18446744073709551616 - 9223372036854775808
           + 1 + 9223372036854775808)
    with ((z + 9223372036854775808) mod 18446744073709551616 + 1) by lia.
  rewrite Zplus_mod_idemp_l. f_equal. lia.
Qed.

End FormatFacts.

(** * More on the resolver *)

Section ResolverEdges.
#[local] Arguments String.append !s1 s2 : simpl nomatch.

(** X1: an address without a colon, the empty one included, is refused in
    both modes with the [net.AddrError] "missing port in address" that names
    the address. *)
Theorem Address_missing_port (cl : rpcResolver) (s : string) :
  ~ occurs ":" s ->
  Address cl s = Err (AddrError "missing port in address" s).
Proof.
  intros N. apply LastIndexByte_None in N.
  unfold Address, rpcResolver_resolver, rpcResolver_Address, SplitHostPort.
  now rewrite N.
Qed.

Lemma Address_missing_port_witness :
  Address (NewRPCResolver true 8300) ""
    = Err (AddrError "missing port in address" "") /\
  Address (NewRPCResolver false 8300) "localhost"
    = Err (AddrError "missing port in address" "localhost").
Proof.
  split.
  - apply (Address_missing_port (NewRPCResolver true 8300) ""). intros [].
  - apply (Address_missing_port (NewRPCResolver false 8300) "localhost").
    simpl. intuition discriminate.
Defined.

Lemma ParseUint_loop_digits (s0 s : string) (acc m n : Z) :
  digits_value s acc = Some m ->
  (exists un, ParseUint_loop s0 s n = Ok un) \/
  ParseUint_loop s0 s n = rangeError "ParseUint" s0.
Proof.
  revert acc n; induction s as [|c s IH]; simpl; intros acc n V; [eauto|].
  destruct (is_digit c); [|discriminate].
  destruct (n >=? maxUint64 / 10 + 1); [now right|].
  destruct ((to_uint64 (to_uint64 (n * 10) + digit_val c) <? to_uint64 (n * 10))
            || (to_uint64 (to_uint64 (n * 10) + digit_val c) >? maxUint64));
    [now right | eauto].
Qed.

Lemma ParseInt_out_of_range (s : string) (n : Z) :
  decimal_value s = Some n -> ~ minInt <= n <= maxInt ->
  ParseInt s = rangeError "ParseInt" s.
Proof.
  intros V R.
  assert (NOk : forall m, ParseInt s <> Ok m).
  { intros m E. apply ParseInt_Ok in E. destruct E as [E B].
    rewrite V in E. injection E as <-. contradiction. }
  revert NOk. unfold ParseInt. unfold decimal_value in V.
  destruct s as [|c s]; [discriminate|].
  change (String.eqb (String c s) "") with false. cbv iota.
  assert (U : forall t m, unsigned_value t = Some m ->
            (exists un, ParseUint t = Ok un) \/ ParseUint t = rangeError "ParseUint" t).
  { intros t m Ut. unfold ParseUint, unsigned_value in *.
    destruct t as [|b t]; [discriminate|].
    change (String.eqb (String b t) "") with false. cbv iota.
    eapply ParseUint_loop_digits, Ut. }
  assert (K : forall neg t m, unsigned_value t = Some m ->
            (forall r, match ParseUint t with
             | Err (NumError _ _ ErrRange) => rangeError "ParseInt" (String c s)
             | Err _ => syntaxError "ParseInt" (String c s)
             | Ok un =>
                 let cutoff := 2 ^ (intSize - 1) in
                 if negb neg && (un >=? cutoff) then rangeError "ParseInt" (String c s)
                 else if neg && (un >? cutoff) then rangeError "ParseInt" (String c s)
                 else Ok (if neg then to_int (- to_int un) else to_int un)
             end <> Ok r) ->
            match ParseUint t with
             | Err (NumError _ _ ErrRange) => rangeError "ParseInt" (String c s)
             | Err _ => syntaxError "ParseInt" (String c s)
             | Ok un =>
                 let cutoff := 2 ^ (intSize - 1) in
                 if negb neg && (un >=? cutoff) then rangeError "ParseInt" (String c s)
                 else if neg && (un >? cutoff) then rangeError "ParseInt" (String c s)
                 else Ok (if neg then to_int (- to_int un) else to_int un)
             end = rangeError "ParseInt" (String c s)).
  { intros neg t m Ut. destruct (U t m Ut) as [[un ->]| ->]; [|reflexivity].
    cbv zeta. intros NOk.
    destruct (negb neg && (un >=? 2 ^ (intSize - 1))); [reflexivity|].
    destruct (neg && (un >? 2 ^ (intSize - 1))); [reflexivity|].
    exfalso. eapply NOk. reflexivity. }
  destruct (Ascii.eqb c "+"); [|destruct (Ascii.eqb c "-")].
  - now apply K with n.
  - destruct (unsigned_value s) as [m|] eqn:Us; [|discriminate]. now apply K with m.
  - now apply K with n.
Qed.

(** X2: in the offset mode a well-formed address whose port is not an [int]
    is refused with the [strconv.NumError] of [Atoi] that names the port
    text: a range error when the text is a decimal number too large or too
    small for [int], a syntax error when the port is empty. *)
Theorem Address_offset_error (cl : rpcResolver) (s host port : string) :
  isLocalCluster cl = true ->
  hostport_form s host port ->
  ~ is_integer port ->
  (Address cl s = Err (NumError "Atoi" port ErrSyntax) \/
   Address cl s = Err (NumError "Atoi" port ErrRange)) /\
  (forall n, decimal_value port = Some n ->
     Address cl s = Err (NumError "Atoi" port ErrRange)) /\
  (port = "" -> Address cl s = Err (NumError "Atoi" "" ErrSyntax)).
Proof.
  intros L F N. rewrite (Address_split _ _ _ _ F), L.
  split; [|split].
  - destruct (Atoi port) as [n|e] eqn:A.
    + exfalso. apply N. exists n. now apply Atoi_Ok.
    + destruct (Atoi_error _ _ A) as [-> | ->]; auto.
  - intros n V. unfold Atoi. rewrite (ParseInt_out_of_range port n V); [reflexivity|].
    intros B. apply N. now exists n.
  - intros ->. reflexivity.
Qed.

Lemma Address_offset_error_witness :
  Address (NewRPCResolver true 8300) "10.0.0.5:70000000000000000000"
    = Err (NumError "Atoi" "70000000000000000000" ErrRange) /\
  Address (NewRPCResolver true 8300) "10.0.0.5:"
    = Err (NumError "Atoi" "" ErrSyntax).
Proof.
  assert (F1 : hostport_form "10.0.0.5:70000000000000000000" "10.0.0.5"
                 "70000000000000000000")
    by (apply SplitHostPort_sound; reflexivity).
  assert (F2 : hostport_form "10.0.0.5:" "10.0.0.5" "")
    by (apply SplitHostPort_sound; reflexivity).
  split.
  - refine (proj1 (proj2 (Address_offset_error (NewRPCResolver true 8300) _ _ _
                            eq_refl F1 _)) 70000000000000000000 _).
    + intros (n & V & B). vm_compute in V. injection V as <-.
      destruct B as [_ B]. vm_compute in B. now apply B.
    + vm_compute; reflexivity.
  - refine (proj2 (proj2 (Address_offset_error (NewRPCResolver true 8300) _ _ _
                            eq_refl F2 _)) eq_refl).
    intros (n & V & _). discriminate V.
Defined.

Lemma FormatInt_no_separator (n : Z) :
  ~ occurs ":" (FormatInt n) /\ ~ occurs "[" (FormatInt n) /\ ~ occurs "]" (FormatInt n).
Proof. exact (integer_text_no_separator _ _ (decimal_value_FormatInt n)). Qed.

Lemma hostport_form_host (s host port : string) :
  hostport_form s host port -> ~ occurs "[" host /\ ~ occurs "]" host.
Proof. intros [? ? ? ? ? ? ?|? ? ? ? ? ?]; auto. Qed.

(** The address returned for a host without a colon is well formed. *)
Lemma resolved_form (host : string) (n : Z) :
  ~ occurs ":" host -> ~ occurs "[" host -> ~ occurs "]" host ->
  hostport_form (host +:+ ":" +:+ FormatInt n) host (FormatInt n).
Proof.
  intros Hc Hl Hr. destruct (FormatInt_no_separator n) as (Pc & Pl & Pr).
  now apply plain_form.
Qed.

(** The value [Address] returns is the host, a colon and a decimal. *)
Lemma Address_Ok_shape (cl : rpcResolver) (s host port out : string) :
  hostport_form s host port -> Address cl s = Ok out ->
  exists n, out = host +:+ ":" +:+ FormatInt n.
Proof.
  intros F. rewrite (Address_split _ _ _ _ F).
  destruct (isLocalCluster cl).
  - destruct (Atoi port); intros [= <-]. eauto.
  - intros [= <-]. eauto.
Qed.

(** X3: in the fixed-port mode, for a host without a colon, resolving is
    idempotent: the address returned is well formed and resolves to itself,
    however many times it is resolved again. *)
Theorem fixed_port_resolve_times (servicePort : Z) (s host port : string) (k : nat) :
  hostport_form s host port ->
  ~ occurs ":" host ->
  resolve_times (S k) (NewRPCResolver false servicePort) s
    = Ok (host +:+ ":" +:+ FormatInt servicePort) /\
  hostport_form (host +:+ ":" +:+ FormatInt servicePort) host (FormatInt servicePort).
Proof.
  intros F Hc. destruct (hostport_form_host _ _ _ F) as [Hl Hr].
  pose proof (resolved_form host servicePort Hc Hl Hr) as F'.
  split; [|exact F'].
  cbn [resolve_times]. rewrite (Address_split _ _ _ _ F). simpl isLocalCluster.
  cbv iota. simpl rpcPort.
  induction k as [|k IH]; [reflexivity|].
  cbn [resolve_times]. rewrite (Address_split _ _ _ _ F'). exact IH.
Qed.

Lemma fixed_port_resolve_times_witness :
  resolve_times 3 (NewRPCResolver false 8300) "[node-1]:7000" = Ok "node-1:8300".
Proof.
  refine (proj1 (fixed_port_resolve_times 8300 "[node-1]:7000" "node-1" "7000" 2 _ _)).
  - apply SplitHostPort_sound; reflexivity.
  - simpl. intuition discriminate.
Defined.

Lemma offset_resolve_canonical (servicePort : Z) (h : string) (k : nat) :
  ~ occurs ":" h -> ~ occurs "[" h -> ~ occurs "]" h ->
  forall z,
    resolve_times k (NewRPCResolver true servicePort) (h +:+ ":" +:+ FormatInt (to_int z))
      = Ok (h +:+ ":" +:+ FormatInt (to_int (z + Z.of_nat k))).
Proof.
  intros Hc Hl Hr. induction k as [|k IH]; intros z.
  - simpl. now rewrite Z.add_0_r.
  - cbn [resolve_times].
    rewrite (Address_offset_int servicePort _ h (FormatInt (to_int z)) (to_int z)
               (resolved_form h _ Hc Hl Hr) (decimal_value_FormatInt _) (to_int_range z)).
    rewrite to_int_add_1, IH.
    now replace (z + 1 + Z.of_nat k) with (z + Z.of_nat (S k)) by lia.
Qed.

(** X4: in the offset mode, for a host without colon or bracket and a port
    that is an [int], resolving [k + 1] times over adds [k + 1] to the port,
    in [int]: what the resolver returns it always takes back. *)
Theorem offset_resolve_times (servicePort : Z) (h p : string) (n : Z) (k : nat) :
  ~ occurs ":" h -> ~ occurs "[" h -> ~ occurs "]" h ->
  decimal_value p = Some n -> minInt <= n <= maxInt ->
  resolve_times (S k) (NewRPCResolver true servicePort) (h +:+ ":" +:+ p)
    = Ok (h +:+ ":" +:+ FormatInt (to_int (n + Z.of_nat (S k)))).
Proof.
  intros Hc Hl Hr V R.
  destruct (integer_text_no_separator _ _ V) as (Pc & Pl & Pr).
  assert (F : hostport_form (h +:+ ":" +:+ p) h p) by now apply plain_form.
  cbn [resolve_times]. rewrite (Address_offset_int servicePort _ _ _ _ F V R).
  unfold int_add. rewrite (offset_resolve_canonical servicePort h k Hc Hl Hr).
  now replace (n + 1 + Z.of_nat k) with (n + Z.of_nat (S k)) by lia.
Qed.

Lemma offset_resolve_times_witness :
  resolve_times 3 (NewRPCResolver true 8300) "h:+0065534" = Ok "h:65537".
Proof.
  assert (N : forall c : ascii, c <> "h"%char -> ~ occurs c "h")
    by (intros c D [E|[]]; congruence).
  refine (offset_resolve_times 8300 "h" "+0065534" 65534 2 _ _ _ _ _).
  - apply N; discriminate.
  - apply N; discriminate.
  - apply N; discriminate.
  - vm_compute; reflexivity.
  - vm_compute; split; discriminate.
Defined.

Lemma SplitHostPort_colon_in_host (host p : string) :
  occurs ":" host -> ~ occurs "[" host -> ~ occurs ":" p ->
  SplitHostPort (host +:+ ":" +:+ p)
    = Err (AddrError "too many colons in address" (host +:+ ":" +:+ p)).
Proof.
  intros Hc Hl Pc. unfold SplitHostPort.
  change (":" +:+ p) with (String ":" p).
  rewrite LastIndexByte_append by assumption.
  assert (match host +:+ String ":" p with
          | String c _ => Ascii.eqb c "[" | _ => false end = false) as ->.
  { destruct host as [|a host]; simpl; [reflexivity|].
    apply Ascii.eqb_neq. simpl in Hl. tauto. }
  rewrite slice_to_append.
  assert (has_byte host ":" = true) as -> by now apply has_byte_true.
  reflexivity.
Qed.

(** X5: the resolver drops the square brackets of a bracketed host.  When
    that host holds a colon, as an IPv6 literal does, the address returned
    (in either mode) is no well-formed pair any more: resolved again (in
    either mode) it is refused with "too many colons in address". *)
Theorem bracketed_host_loses_brackets (cl cl' : rpcResolver) (s host port out : string) :
  hostport_form s host port ->
  occurs ":" host ->
  Address cl s = Ok out ->
  (exists n, out = host +:+ ":" +:+ FormatInt n) /\
  s <> host +:+ ":" +:+ port /\
  ~ well_formed_hostport out /\
  Address cl' out = Err (AddrError "too many colons in address" out).
Proof.
  intros F Hc A. destruct (hostport_form_host _ _ _ F) as [Hl Hr].
  destruct (Address_Ok_shape _ _ _ _ _ F A) as [n ->].
  destruct (FormatInt_no_separator n) as (Pc & _ & _).
  pose proof (SplitHostPort_colon_in_host host (FormatInt n) Hc Hl Pc) as S.
  split; [eauto|]. split; [|split].
  - destruct F as [-> N _ _ _ _ _| -> _ _ _ _ _]; [contradiction|].
    destruct host; discriminate || (intros [= E]; simpl in Hl; subst; tauto).
  - intros W. apply SplitHostPort_Err in W; [exact W|]. now rewrite S.
  - unfold Address, rpcResolver_resolver, rpcResolver_Address. now rewrite S.
Qed.

Lemma bracketed_host_loses_brackets_witness :
  Address (NewRPCResolver false 8300) "[::1]:7000" = Ok "::1:8300" /\
  Address (NewRPCResolver false 8300) "::1:8300"
    = Err (AddrError "too many colons in address" "::1:8300").
Proof.
  assert (A : Address (NewRPCResolver false 8300) "[::1]:7000" = Ok "::1:8300")
    by reflexivity.
  split; [exact A|].
  refine (proj2 (proj2 (proj2
    (bracketed_host_loses_brackets (NewRPCResolver false 8300)
       (NewRPCResolver false 8300) "[::1]:7000" "::1" "7000" "::1:8300" _ _ A)))).
  - apply SplitHostPort_sound; reflexivity.
  - simpl. now left.
Defined.

End ResolverEdges.

(** * More on the cache *)

Section PoolFacts.
Context {R : Type} `{!rpcAddressResolver R} `{!Network}.

Implicit Types (cl : Client R) (w : world) (conn : handle).

Lemma pool_ok_miss_world a cl w :
  pool_ok cl w ->
  forall conn c, conns (miss_world a cl w) !! conn = Some c ->
    ~ is_open c /\ (leaderConn cl = Some conn -> serviceConfig c = true).
Proof.
  intros [Hv Hp] conn c. unfold miss_world, log. cbn [conns].
  destruct (leaderConn cl) as [h|] eqn:E.
  - destruct (Nat.eq_dec h conn) as [->|N].
    + rewrite conn_Close_lookup.
      destruct (conns w !! conn) as [c0|] eqn:E0; [|discriminate].
      intros [= <-]. split; [unfold is_open; simpl; lia|].
      intros _. simpl. now apply (Hp conn c0 E0).
    + rewrite conn_Close_lookup_ne by assumption. intros E0.
      destruct (Hp conn c E0) as [O S]. split; [|exact S].
      intros Op. apply O in Op. congruence.
  - intros E0. destruct (Hp conn c E0) as [O S]. split; [|exact S].
    intros Op. apply O in Op. discriminate.
Qed.

Lemma getConn_pool_ok a cl w r cl' w' :
  pool_ok cl w -> getConn a cl w = (r, cl', w') -> pool_ok cl' w'.
Proof.
  intros Hok. pose proof (pool_ok_miss_world a cl w Hok) as Hm.
  destruct (hit_or_miss a cl) as [(c & E & ->)|M].
  - rewrite (getConn_hit _ _ _ _ E eq_refl). now intros [= <- <- <-].
  - rewrite (getConn_miss _ _ _ M).
    destruct (Address (rpc cl) a) as [addr|e].
    + destruct (grpc_Dial addr true _) as [[c|e] w1] eqn:D; intros [= <- <- <-].
      * pose proof (grpc_Dial_Ok _ _ _ _ _ D) as (_ & -> & C1 & _).
        split; cbn [leaderConn].
        { intros conn [= <-]. rewrite C1, length_app. simpl. lia. }
        intros conn c. rewrite C1. intros L.
        apply lookup_app_Some in L. destruct L as [L|[Ge L]].
        -- destruct (Hm conn c L) as [NO _]. split; [intros O; contradiction|].
           intros [= <-]. apply lookup_lt_Some in L.
           unfold miss_world in L. cbn [log conns] in L. lia.
        -- destruct (conn - length (conns (miss_world a cl w)))%nat as [|k] eqn:K;
             [|discriminate].
           injection L as <-. simpl. split; [|reflexivity].
           intros _. f_equal. unfold miss_world in *. cbn [log conns] in *. lia.
      * apply grpc_Dial_Err in D. destruct D as [_ ->].
        split; cbn [leaderConn]; [intros conn [=]|].
        intros conn c L. destruct (Hm conn c L) as [NO _].
        split; [intros O; contradiction | intros [=]].
    + intros [= <- <- <-]. split.
      * intros conn E. rewrite miss_world_length. now apply (proj1 Hok).
      * intros conn c L. destruct (Hm conn c L) as [NO S].
        split; [intros O; contradiction | exact S].
Qed.

Lemma pool_ok_log e cl w : pool_ok cl w -> pool_ok cl (log e w).
Proof. intros Hok. exact Hok. Qed.

Lemma Close_pool_ok cl w cl' w' :
  pool_ok cl w -> Close cl w = (cl', w') -> pool_ok cl' w'.
Proof.
  intros Hok. unfold Close.
  destruct (leaderConn cl) as [h|] eqn:E; intros [= <- <-]; [|exact Hok].
  destruct Hok as [Hv Hp]. split.
  - intros conn E'. rewrite conn_Close_length. now apply Hv.
  - intros conn c. destruct (Nat.eq_dec h conn) as [->|N].
    + rewrite conn_Close_lookup.
      destruct (conns w !! conn) as [c0|] eqn:E0; [|discriminate].
      intros [= <-]. split; [intros _; exact E|].
      intros _. simpl. now apply (Hp conn c0 E0).
    + rewrite conn_Close_lookup_ne by assumption. apply Hp.
Qed.

Lemma callLeader_pool_ok m ctx a req cl w r cl' w' :
  pool_ok cl w -> callLeader m ctx a req cl w = (r, cl', w') -> pool_ok cl' w'.
Proof.
  unfold callLeader. intros Hok.
  destruct (getConn a cl w) as [[[conn|e] cl1] w1] eqn:G;
    pose proof (getConn_pool_ok _ _ _ _ _ _ Hok G) as Hok1;
    intros [= <- <- <-]; exact Hok1.
Qed.

Lemma Notify_pool_ok ctx a req cl w r cl' w' :
  pool_ok cl w -> Notify ctx a req cl w = (r, cl', w') -> pool_ok cl' w'.
Proof.
  intros Hok. pose proof Hok as [Hv Hp]. unfold Notify.
  destruct (Address (rpc cl) a) as [addr|e]; [|now intros [= <- <- <-]].
  destruct (grpc_Dial addr false (log (EvResolve a) w)) as [[c|e] w1] eqn:D;
    intros [= <- <- <-].
  - pose proof (grpc_Dial_Ok _ _ _ _ _ D) as (_ & -> & C1 & _).
    cbn [log conns] in C1. split.
    + intros conn E. rewrite conn_Close_length. cbn [log conns].
      rewrite C1, length_app. apply Hv in E. lia.
    + intros conn c. cbn [log conns].
      destruct (Nat.eq_dec (length (conns w)) conn) as [<-|N].
      * rewrite conn_Close_lookup. cbn [log conns]. rewrite C1.
        rewrite list_lookup_middle by reflexivity. intros [= <-].
        split; [unfold is_open; simpl; lia|].
        intros E. apply Hv in E. lia.
      * rewrite conn_Close_lookup_ne by assumption. cbn [log conns]. rewrite C1.
        intros L. apply lookup_app_Some in L. destruct L as [L|[Ge L]];
          [now apply Hp|].
        destruct (conn - length (conns w))%nat as [|k] eqn:K; [lia | discriminate].
  - apply grpc_Dial_Err in D. destruct D as [_ ->]. exact Hok.
Qed.

Lemma step_pool_ok o cl w r cl' w' :
  pool_ok cl w -> step o cl w = (r, cl', w') -> pool_ok cl' w'.
Proof.
  intros Hok. destruct o as [ctx a req|ctx a req|ctx a req|a req|ctx a req|]; simpl.
  - destruct (Join ctx a req cl w) as [[r1 cl1] w1] eqn:E. intros [= <- <- <-].
    eapply callLeader_pool_ok; eassumption.
  - destruct (Notify ctx a req cl w) as [[r1 cl1] w1] eqn:E. intros [= <- <- <-].
    eapply Notify_pool_ok; eassumption.
  - destruct (Remove ctx a req cl w) as [[r1 cl1] w1] eqn:E. intros [= <- <- <-].
    eapply callLeader_pool_ok; eassumption.
  - destruct (Apply a req cl w) as [[r1 cl1] w1] eqn:E. intros [= <- <- <-].
    eapply callLeader_pool_ok; eassumption.
  - destruct (Query ctx a req cl w) as [[r1 cl1] w1] eqn:E. intros [= <- <- <-].
    eapply callLeader_pool_ok; eassumption.
  - destruct (Close cl w) as [cl1 w1] eqn:E. intros [= <- <- <-].
    eapply Close_pool_ok; eassumption.
Qed.

Lemma run_pool_ok os cl w cl' w' :
  pool_ok cl w -> run os cl w = (cl', w') -> pool_ok cl' w'.
Proof.
  revert cl w; induction os as [|o os IH]; simpl; intros cl w Hok.
  - now intros [= <- <-].
  - destruct (step o cl w) as [[r cl1] w1] eqn:S.
    apply IH. eapply step_pool_ok; eassumption.
Qed.

Lemma NewClient_pool_ok (r : R) : pool_ok (NewClient r) emptyWorld.
Proof. split; [intros conn [=] | intros conn c [=]]. Qed.

(** X6: no connection is leaked: from a new client, after any sequence of
    [Join], [Notify], [Remove], [Apply], [Query] and [Close], a connection
    that is still open is the cached leader connection; so at most one
    connection is open. *)
Theorem no_connection_leak (r : R) os cl w :
  run os (NewClient r) emptyWorld = (cl, w) ->
  (forall conn c, conns w !! conn = Some c -> is_open c -> leaderConn cl = Some conn) /\
  (forall conn1 c1 conn2 c2,
     conns w !! conn1 = Some c1 -> is_open c1 ->
     conns w !! conn2 = Some c2 -> is_open c2 -> conn1 = conn2).
Proof.
  intros Rn. destruct (run_pool_ok _ _ _ _ _ (NewClient_pool_ok r) Rn) as [_ Hp].
  assert (L : forall conn c, conns w !! conn = Some c -> is_open c ->
                leaderConn cl = Some conn) by (intros conn c E; now apply Hp).
  split; [exact L|]. intros conn1 c1 conn2 c2 E1 O1 E2 O2.
  pose proof (L _ _ E1 O1). pose proof (L _ _ E2 O2). congruence.
Qed.

(** X7: the retry policy is on every leader connection and on no other: from
    a new client, after any sequence of operations, the cached connection is
    one of the table and was dialled with the service configuration, and a
    connection dialled without it (by [Notify]) has been closed. *)
Theorem service_config_on_leader_connections (r : R) os cl w :
  run os (NewClient r) emptyWorld = (cl, w) ->
  (forall conn, leaderConn cl = Some conn ->
     exists c, conns w !! conn = Some c /\ serviceConfig c = true) /\
  (forall conn c, conns w !! conn = Some c -> serviceConfig c = false -> is_closed c).
Proof.
  intros Rn. destruct (run_pool_ok _ _ _ _ _ (NewClient_pool_ok r) Rn) as [Hv Hp].
  split.
  - intros conn E. destruct (lookup_lt_is_Some_2 _ _ (Hv _ E)) as [c Ec].
    exists c. split; [exact Ec | now apply (Hp conn c Ec)].
  - intros conn c Ec F. destruct (Hp conn c Ec) as [O S].
    unfold is_closed. destruct (closeCalls c) eqn:K; [|lia].
    rewrite (S (O K)) in F. discriminate.
Qed.

(** X8: the handle [getConn] returns, from a state the client can be in, is a
    connection of the table that was dialled at the RPC address of the
    address asked for. *)
Theorem getConn_returns_connection_for a cl w conn cl' w' :
  cache_ok cl w ->
  getConn a cl w = (Ok conn, cl', w') ->
  exists c addr,
    Address (rpc cl) a = Ok addr /\
    conns w' !! conn = Some c /\
    target c = addr.
Proof.
  intros Hok G.
  destruct (getConn_cache_ok _ _ _ _ _ _ Hok G) as [Er Hok'].
  destruct (getConn_Ok _ _ _ _ _ _ G) as (_ & E & La).
  destruct (Hok' _ E) as (c & Ec & A). rewrite La, Er in A.
  exists c, (target c). auto.
Qed.

(** X9: after a dial that failed the cache holds no connection: the failing
    [getConn] returns the dial error wrapped, and the next [getConn],
    whatever its address, that of the former leader included, resolves
    first and can only return a handle the table did not have. *)
Theorem getConn_after_failed_dial b cl w addr err :
  leaderConn cl = None \/ b <> leaderAddr cl ->
  Address (rpc cl) b = Ok addr ->
  dial_error (miss_world b cl w) addr = Some err ->
  exists cl' w',
    getConn b cl w = (Err (Errorf_w "dial: " err), cl', w') /\
    leaderConn cl' = None /\
    leaderAddr cl' = leaderAddr cl /\
    forall x r cl'' w'',
      getConn x cl' w' = (r, cl'', w'') ->
      (exists rest, trace w'' = (trace w' ++ EvResolve x :: rest)%list) /\
      forall conn, r = Ok conn -> conns w' !! conn = None /\ dials w'' = S (dials w').
Proof.
  intros M A D. rewrite (getConn_miss _ _ _ M), A.
  unfold grpc_Dial at 1. rewrite D.
  do 2 eexists. split; [reflexivity|]. split; [reflexivity|]. split; [reflexivity|].
  intros x r cl'' w''.
  set (cl' := {| rpc := rpc cl; leaderAddr := leaderAddr cl; leaderConn := None |}).
  set (w' := log (EvDial addr None) (miss_world b cl w)).
  assert (M' : leaderConn cl' = None \/ x <> leaderAddr cl') by now left.
  rewrite (getConn_miss _ _ _ M').
  assert (T : trace (miss_world x cl' w') = (trace w' ++ [EvResolve x])%list)
    by reflexivity.
  destruct (Address (rpc cl') x) as [addr'|e].
  - destruct (grpc_Dial addr' true (miss_world x cl' w')) as [[c|e] w1] eqn:Dl;
      intros [= <- <- <-].
    + pose proof (grpc_Dial_Ok _ _ _ _ _ Dl) as (_ & Ec & _ & T1).
      split; [eexists; rewrite T1, T, <- app_assoc; reflexivity|].
      intros conn [= <-]. split.
      * apply lookup_ge_None_2. rewrite Ec, miss_world_length. lia.
      * rewrite (dials_grpc_Dial_Ok _ _ _ _ _ Dl). now rewrite dials_miss_world.
    + apply grpc_Dial_Err in Dl. destruct Dl as [_ ->].
      split; [|intros conn [=]]. eexists. cbn [log trace]. rewrite T, <- app_assoc.
      reflexivity.
  - intros [= <- <- <-]. split; [|intros conn [=]].
    exists []. exact T.
Qed.

(** X10: [Join], [Remove], [Apply] and [Query] share the leader connection:
    once one of them has made its call on the connection for an address, any
    of them called next with that address makes its call on the same
    connection, with no resolution and no dial. *)
Theorem callLeader_reuses_connection m1 ctx1 req1 m2 ctx2 req2 a cl w conn cl1 w0 :
  getConn a cl w = (Ok conn, cl1, w0) ->
  let w1 := log (EvCall m1 conn) w0 in
  callLeader m1 ctx1 a req1 cl w = (invoke m1 ctx1 conn req1 w0, cl1, w1) /\
  callLeader m2 ctx2 a req2 cl1 w1
    = (invoke m2 ctx2 conn req2 w1, cl1, log (EvCall m2 conn) w1) /\
  Join ctx2 a req2 cl1 w1
    = (invoke cmd.JoinPeer ctx2 conn req2 w1, cl1, log (EvCall cmd.JoinPeer conn) w1) /\
  Remove ctx2 a req2 cl1 w1
    = (invoke cmd.RemovePeer ctx2 conn req2 w1, cl1, log (EvCall cmd.RemovePeer conn) w1) /\
  Apply a req2 cl1 w1
    = (invoke cmd.Apply context_Background conn req2 w1, cl1,
       log (EvCall cmd.Apply conn) w1) /\
  Query ctx2 a req2 cl1 w1
    = (invoke cmd.Query ctx2 conn req2 w1, cl1, log (EvCall cmd.Query conn) w1).
Proof.
  intros G w1. destruct (getConn_Ok _ _ _ _ _ _ G) as (_ & E & La).
  assert (Hit : forall w2, getConn a cl1 w2 = (Ok conn, cl1, w2))
    by (intros w2; apply getConn_hit; [exact E | now rewrite La]).
  assert (Again : forall m ctx req,
            callLeader m ctx a req cl1 w1
              = (invoke m ctx conn req w1, cl1, log (EvCall m conn) w1))
    by (intros m ctx req; unfold callLeader; now rewrite Hit).
  split; [unfold callLeader; now rewrite G|].
  split; [apply Again|]. unfold Join, Remove, Apply, Query. now rewrite !Again.
Qed.

(** X11: [Close] does not unbind the cache: after it, a call on the leader
    with the cached address is made on the connection just closed, with no
    resolution and no dial. *)
Theorem callLeader_after_Close m ctx req cl w conn c :
  leaderConn cl = Some conn ->
  conns w !! conn = Some c ->
  let w' := conn_Close conn w in
  Close cl w = (cl, w') /\
  conns w' !! conn = Some (closeConn c) /\
  is_closed (closeConn c) /\
  callLeader m ctx (leaderAddr cl) req cl w'
    = (invoke m ctx conn req w', cl, log (EvCall m conn) w').
Proof.
  intros E Ec w'. split; [unfold Close; now rewrite E|].
  split; [subst w'; now rewrite conn_Close_lookup, Ec|].
  split; [unfold is_closed; simpl; lia|].
  unfold callLeader. now rewrite (getConn_hit _ cl w' conn E eq_refl).
Qed.

End PoolFacts.

Section OnReachableNetworkMore.
#[local] Existing Instance reachableNetwork.

Lemma getConn_returns_connection_for_witness :
  exists c, conns w_n1 !! O = Some c /\ target c = "n1:8300".
Proof.
  destruct (getConn_returns_connection_for "n1:7000" cl_new emptyWorld O cl_n1 w_n1)
    as (c & addr & A & Ec & T).
  - apply NewClient_cache_ok.
  - vm_compute; reflexivity.
  - exists c. split; [exact Ec|]. rewrite T.
    assert (Ok addr = Ok "n1:8300") as [= ->]; [|reflexivity].
    rewrite <- A. vm_compute. reflexivity.
Defined.

Lemma callLeader_reuses_connection_witness :
  Join tt "n1:7000" "join" cl_new emptyWorld
    = (Some "n1:8300", None, cl_n1, log (EvCall cmd.JoinPeer O) w_n1) /\
  Apply "n1:7000" "put" cl_n1 (log (EvCall cmd.JoinPeer O) w_n1)
    = (Some "n1:8300", None, cl_n1,
       log (EvCall cmd.Apply O) (log (EvCall cmd.JoinPeer O) w_n1)).
Proof.
  destruct (@callLeader_reuses_connection rpcResolver _ reachableNetwork
              cmd.JoinPeer tt "join" cmd.Apply tt "put"
              "n1:7000" cl_new emptyWorld O cl_n1 w_n1)
    as (H1 & _ & _ & _ & H5 & _); [vm_compute; reflexivity|].
  split; [exact H1 | exact H5].
Defined.

Lemma callLeader_after_Close_witness :
  Close cl_n1 w_n1 = (cl_n1, conn_Close O w_n1) /\
  Query tt "n1:7000" "get" cl_n1 (conn_Close O w_n1)
    = (None, Some (errorString "grpc: the client connection is closing"),
       cl_n1, log (EvCall cmd.Query O) (conn_Close O w_n1)).
Proof.
  destruct (@callLeader_after_Close rpcResolver _ reachableNetwork
              cmd.Query tt "get" cl_n1 w_n1 O
              {| target := "n1:8300"; serviceConfig := true; closeCalls := O |})
    as (H1 & _ & _ & H4); [reflexivity | reflexivity |].
  split; [exact H1 | exact H4].
Defined.

Lemma no_connection_leak_witness :
  exists cl w,
    run [OpApply "n1:7000" "put"; OpNotify tt "n3:7000" "hello";
         OpQuery tt "n2:7000" "get"; OpJoin tt "n1:7000" "join"]
        cl_new emptyWorld = (cl, w) /\
    length (conns w) = 4%nat /\
    forall conn c, conns w !! conn = Some c -> is_open c -> leaderConn cl = Some conn.
Proof.
  do 2 eexists. split; [vm_compute; reflexivity|]. split; [reflexivity|].
  refine (proj1 (no_connection_leak lab_resolver
            [OpApply "n1:7000" "put"; OpNotify tt "n3:7000" "hello";
             OpQuery tt "n2:7000" "get"; OpJoin tt "n1:7000" "join"] _ _ _)).
  vm_compute; reflexivity.
Defined.

Lemma service_config_on_leader_connections_witness :
  exists cl w,
    run [OpNotify tt "n3:7000" "hello"; OpApply "n1:7000" "put"]
        cl_new emptyWorld = (cl, w) /\
    leaderConn cl = Some 1%nat /\
    exists c, conns w !! 1%nat = Some c /\ serviceConfig c = true.
Proof.
  do 2 eexists. split; [vm_compute; reflexivity|]. split; [reflexivity|].
  refine (proj1 (service_config_on_leader_connections lab_resolver
            [OpNotify tt "n3:7000" "hello"; OpApply "n1:7000" "put"] _ _ _) 1%nat _).
  - vm_compute; reflexivity.
  - reflexivity.
Defined.

End OnReachableNetworkMore.

Section OnNetworkWithN2DownMore.
#[local] Existing Instance n2DownNetwork.

Lemma getConn_after_failed_dial_witness :
  exists cl' w',
    getConn "n2:7000" cl_n1 w_n1
      = (Err (Errorf_w "dial: " (errorString "connection refused")), cl', w') /\
    leaderConn cl' = None /\
    leaderAddr cl' = "n1:7000".
Proof.
  destruct (getConn_after_failed_dial "n2:7000" cl_n1 w_n1 "n2:8300"
              (errorString "connection refused"))
    as (cl' & w' & H1 & H2 & H3 & _).
  - right. discriminate.
  - vm_compute; reflexivity.
  - vm_compute; reflexivity.
  - exists cl', w'. repeat split; assumption.
Defined.

End OnNetworkWithN2DownMore.

(** * The client over the resolver of this package *)

Section ClientOverRpcResolver.
Context `{!Network}.
#[local] Arguments String.append !s1 s2 : simpl nomatch.

Implicit Types (cl : Client rpcResolver) (w : world).

(** X12: a leader address without a colon never reaches the network: on a
    cache miss the call returns no response and the error
    "resolve address: address <a>: missing port in address" (without the
    "address <a>: " part when [a] is empty), which unwraps to the
    [net.AddrError]; the client is unchanged and nothing is dialled. *)
Theorem callLeader_missing_port m ctx req a cl w (Quote : string -> string) :
  ~ occurs ":" a ->
  leaderConn cl = None \/ a <> leaderAddr cl ->
  exists err,
    callLeader m ctx a req cl w = ((None, Some err), cl, miss_world a cl w) /\
    Unwrap err = Some (AddrError "missing port in address" a) /\
    Error Quote err
      = (if String.eqb a "" then "resolve address: missing port in address"
         else "resolve address: address " +:+ a +:+ ": missing port in address") /\
    dials (miss_world a cl w) = dials w.
Proof.
  intros N M.
  assert (A : Address (rpc cl) a = Err (AddrError "missing port in address" a)).
  { apply LastIndexByte_None in N.
    unfold Address, rpcResolver_resolver, rpcResolver_Address, SplitHostPort.
    now rewrite N. }
  eexists. unfold callLeader.
  rewrite (getConn_miss _ _ _ M), A.
  split; [reflexivity|]. split; [reflexivity|]. split; [|apply dials_miss_world].
  simpl. destruct (String.eqb a ""); reflexivity.
Qed.

End ClientOverRpcResolver.

Section CloseAgain.
Context {R : Type} `{!rpcAddressResolver R} `{!Network}.

(** X13: [Close] is not guarded against repetition: each call closes the
    cached connection once more, and changes nothing else; after [n] calls
    the connection has been closed [n] more times, and the cache is still
    bound to it. *)
Theorem Close_repeated n (cl : Client R) (w : world) conn c :
  leaderConn cl = Some conn ->
  conns w !! conn = Some c ->
  exists w' c',
    run (replicate n OpClose) cl w = (cl, w') /\
    conns w' !! conn = Some c' /\
    closeCalls c' = (closeCalls c + n)%nat /\
    target c' = target c /\
    length (conns w') = length (conns w) /\
    dials w' = dials w.
Proof.
  intros E. revert w c. induction n as [|n IH]; intros w c Ec.
  - exists w, c. simpl. repeat split; try reflexivity; [exact Ec | lia].
  - cbn [replicate run step]. unfold Close. rewrite E.
    destruct (IH (conn_Close conn w) (closeConn c)) as (w' & c' & Rn & Ec' & K & T & L & D).
    { now rewrite conn_Close_lookup, Ec. }
    exists w', c'. split; [exact Rn|]. split; [exact Ec'|].
    split; [rewrite K; simpl; lia|]. split; [exact T|].
    split; [now rewrite L, conn_Close_length|].
    rewrite D. unfold dials, conn_Close. cbn [trace]. rewrite count_app. simpl. lia.
Qed.

End CloseAgain.

Section OnReachableNetworkLast.
#[local] Existing Instance reachableNetwork.

Lemma callLeader_missing_port_witness :
  exists err,
    Join tt "not-an-address" "join" cl_n1 w_n1
      = ((None, Some err), cl_n1, miss_world "not-an-address" cl_n1 w_n1) /\
    Error (fun s => s) err
      = "resolve address: address not-an-address: missing port in address".
Proof.
  destruct (@callLeader_missing_port reachableNetwork cmd.JoinPeer tt "join"
              "not-an-address" cl_n1 w_n1 (fun s => s))
    as (err & H1 & _ & H3 & _).
  - simpl. intuition discriminate.
  - right. discriminate.
  - exists err. split; [exact H1 | exact H3].
Defined.

Lemma Close_repeated_witness :
  exists w' c',
    run [OpClose; OpClose] cl_n1 w_n1 = (cl_n1, w') /\
    conns w' !! O = Some c' /\
    closeCalls c' = 2%nat.
Proof.
  destruct (@Close_repeated rpcResolver _ reachableNetwork 2 cl_n1 w_n1 O
              {| target := "n1:8300"; serviceConfig := true; closeCalls := O |})
    as (w' & c' & H1 & H2 & H3 & _); [reflexivity | reflexivity |].
  exists w', c'. repeat split; assumption.
Defined.

End OnReachableNetworkLast.

(** * Where two sentences of the specification go too far *)

Section SpecifiedTooWide.
#[local] Existing Instance reachableNetwork.

(** C7, as stated, fails in the offset mode on a port that is an integer
    too large for [int]: the pair is well formed, the port is an integer,
    and the resolver returns the range error of [Atoi]. *)
Lemma error_exactly_as_specified_counterexample :
  hostport_form "h:9223372036854775808" "h" "9223372036854775808" /\
  decimal_value "9223372036854775808" = Some 9223372036854775808 /\
  Address (NewRPCResolver true 8300) "h:9223372036854775808"
    = Err (NumError "Atoi" "9223372036854775808" ErrRange) /\
  ~ error_exactly_as_specified (NewRPCResolver true 8300) "h:9223372036854775808".
Proof.
  assert (F : hostport_form "h:9223372036854775808" "h" "9223372036854775808")
    by (apply SplitHostPort_sound; reflexivity).
  assert (V : decimal_value "9223372036854775808" = Some 9223372036854775808)
    by (vm_compute; reflexivity).
  assert (A : Address (NewRPCResolver true 8300) "h:9223372036854775808"
              = Err (NumError "Atoi" "9223372036854775808" ErrRange))
    by (vm_compute; reflexivity).
  split; [exact F|]. split; [exact V|]. split; [exact A|].
  intros [E _]. rewrite A in E. destruct (E I) as [N|(_ & host & port & F' & N)].
  - apply N. now exists "h", "9223372036854775808".
  - apply N. apply SplitHostPort_complete in F, F'. rewrite F in F'.
    injection F' as _ <-. now exists 9223372036854775808.
Qed.


End SpecifiedTooWide.
